(** * lava.magma.core.decorator: the class decorators [implements],
      [requires] and [tags]

    A shallow embedding of [src/lava/magma/core/decorator.py].

    The decorators read and write class attributes of Python classes, so the
    model carries an explicit program state:

    - a table of classes; every class has a name, the tail of its method
      resolution order (its proper ancestors, linearised) and its own
      attribute dictionary ([cls.__dict__]);
    - a heap of [list] objects.  The lists stored in class attributes are
      objects with an identity: [.copy()] and [+] allocate a new object,
      [.append] and [.extend] update one in place, and [setattr] stores a
      reference.  Two attributes may therefore alias one list.

    Exceptions do not roll the state back: a computation returns the state it
    reached together with either the raised exception or its value. *)

From stdpp Require Import base option list strings gmap.
From Stdlib Require Import ZArith.

Local Open Scope string_scope.
Local Open Scope list_scope.
Local Open Scope nat_scope.

(** ** Values *)

(** Identity of a class object. *)
Abbreviation classid := positive.

(** Address of a [list] object on the heap. *)
Abbreviation loc := nat.

(** Values passed as decorator arguments and held as list elements.  None of
    the decorators updates an argument in place, so a list or tuple literal
    found inside the arguments is held by value. *)
#[warnings="-register-all"]
Inductive pyval : Type :=
  | VNone
  | VInt (z : Z)
  | VStr (s : string)
  | VCls (c : classid)
  | VList (l : list pyval)
  | VTuple (l : list pyval).

(** Values of the class attributes the decorators deal with: [None], a class,
    or a reference to a list object. *)
Inductive attr : Type :=
  | ANone
  | ACls (c : classid)
  | AList (l : loc).

Global Instance attr_eq_dec : EqDecision attr.
Proof. solve_decision. Defined.

(** ** Classes and the program state *)

Record class_obj : Type := ClassObj {
  c_name : string;
  (** [cls.__mro__] without its head, which is always [cls] itself *)
  c_ancestors : list classid;
  (** [cls.__dict__] *)
  c_dict : gmap string attr
}.

Record state : Type := State {
  classes : gmap classid class_obj;
  heap : list (list pyval)
}.

(** ** Exceptions *)

(** The texts of the assertion errors raised in this file. *)
Inductive assert_msg : Type :=
  | NoMessage
      (* raise AssertionError *)
  | MsgNotProcessModel
      (* Decorated class must be a subclass of 'AbstractProcessModel'. *)
  | MsgAlreadyProcess (name : string)
      (* ProcessModel '<name>' already implements a Process
         (perhaps due to sub classing). *)
  | MsgAlreadyProtocol (name : string)
      (* ProcessModel '<name>' already implements a SyncProtocol
         (perhaps due to sub classing). *)
  | MsgRequiresItem
      (* 'requires' accepts individual or lists of 'AbstractResources'. *)
  | MsgRequiresList
      (* Lists passed to 'require' must contain subclasses of
         AbstractResource. *)
  | MsgTagsInput.
      (* Invalid input to the 'tags' decorator. Valid input should be
         keywords as strings or a list of strings *)

Inductive exn : Type :=
  | AssertionError (m : assert_msg)
  | TypeError
  | AttributeError.

(** The error taxonomy of the specification, read off the raise sites. *)
Definition InvalidArgument (e : exn) : Prop :=
  e = AssertionError NoMessage ∨ e = AssertionError MsgRequiresItem ∨
  e = AssertionError MsgRequiresList ∨ e = AssertionError MsgTagsInput.

Definition InvalidTarget (e : exn) : Prop :=
  e = AssertionError MsgNotProcessModel.

Definition ConflictError (e : exn) : Prop :=
  ∃ name, e = AssertionError (MsgAlreadyProcess name) ∨
          e = AssertionError (MsgAlreadyProtocol name).

(** ** The monad of stateful computations that may raise *)

Definition M (A : Type) : Type := state → state * (exn + A).

Definition ret {A} (a : A) : M A := λ st, (st, inr a).

Definition raise {A} (e : exn) : M A := λ st, (st, inl e).

Definition bind {A B} (m : M A) (k : A → M B) : M B :=
  λ st, match m st with
        | (st', inl e) => (st', inl e)
        | (st', inr a) => k a st'
        end.

Notation "x <- m ;; k" := (bind m (λ x, k))
  (at level 100, m at next level, right associativity,
   format "'[v' x  <-  m  ;;  '/' k ']'").
Notation "m ;;; k" := (bind m (λ _, k))
  (at level 100, right associativity).

(** [for x in l: body x] *)
Fixpoint for_each {A} (body : A → M unit) (l : list A) : M unit :=
  match l with
  | [] => ret tt
  | x :: l' => body x ;;; for_each body l'
  end.

(** What a computation did. *)
Definition final {A} (r : state * (exn + A)) : state := fst r.
Definition outcome {A} (r : state * (exn + A)) : exn + A := snd r.

(** ** Primitive operations of the Python runtime *)

(** [cls.__mro__]; [None] when [c] is not a class of the program. *)
Definition mro (st : state) (c : classid) : option (list classid) :=
  o ← classes st !! c; Some (c :: c_ancestors o).

(** [issubclass(c, base)] for a class [c]: [base] occurs in the method
    resolution order of [c]; no class is registered as a virtual subclass of
    an abstract base class.  On something that is not a class Python raises
    [TypeError]. *)
Definition issubclass_cls (c base : classid) : M bool :=
  λ st, match mro st c with
        | Some m => (st, inr (bool_decide (base ∈ m)))
        | None => (st, inl TypeError)
        end.

Definition issubclass (v : pyval) (base : classid) : M bool :=
  match v with
  | VCls c => issubclass_cls c base
  | _ => raise TypeError
  end.

(** First hit of attribute [name] along a method resolution order. *)
Fixpoint lookup_mro (cs : gmap classid class_obj) (name : string)
    (m : list classid) : option attr :=
  match m with
  | [] => None
  | c :: m' =>
      match cs !! c with
      | Some o =>
          match c_dict o !! name with
          | Some a => Some a
          | None => lookup_mro cs name m'
          end
      | None => lookup_mro cs name m'
      end
  end.

(** The attribute [name] as visible on class [c]: its own or the nearest
    inherited one. *)
Definition visible (st : state) (c : classid) (name : string) : option attr :=
  m ← mro st c; lookup_mro (classes st) name m.

(** [hasattr(cls, name)] *)
Definition hasattr (c : classid) (name : string) : M bool :=
  λ st, (st, inr (bool_decide (is_Some (visible st c name)))).

(** [cls.name] *)
Definition getattr (c : classid) (name : string) : M attr :=
  λ st, match visible st c name with
        | Some a => (st, inr a)
        | None => (st, inl AttributeError)
        end.

(** [setattr(cls, name, a)]: writes the own dictionary of [cls]. *)
Definition set_own (name : string) (a : attr) (o : class_obj) : class_obj :=
  ClassObj (c_name o) (c_ancestors o) (<[name := a]> (c_dict o)).

Definition setattr (c : classid) (name : string) (a : attr) : M unit :=
  λ st, match classes st !! c with
        | Some o => (State (<[c := set_own name a o]> (classes st)) (heap st),
                     inr tt)
        | None => (st, inl TypeError)
        end.

(** [cls.__name__] *)
Definition class_name (c : classid) : M string :=
  λ st, match classes st !! c with
        | Some o => (st, inr (c_name o))
        | None => (st, inl TypeError)
        end.

(** Contents of the list object at [l]; a reference that the program never
    allocated reads as the empty list. *)
Definition list_at (st : state) (l : loc) : list pyval :=
  default [] (heap st !! l).

Definition read_list (l : loc) : M (list pyval) :=
  λ st, (st, inr (list_at st l)).

(** A new list object holding [xs]: [list(xs)], [[]], and the results of
    [.copy()] and [+]. *)
Definition new_list (xs : list pyval) : M loc :=
  λ st, (State (classes st) (heap st ++ [xs]), inr (length (heap st))).

(** In-place update of the list object at [l]. *)
Definition write_list (l : loc) (xs : list pyval) : M unit :=
  λ st, (State (classes st) (<[l := xs]> (heap st)), inr tt).

(** [l.append(x)] *)
Definition list_append (l : loc) (x : pyval) : M unit :=
  xs <- read_list l ;; write_list l (xs ++ [x]).

(** [l.extend(ys)] *)
Definition list_extend (l : loc) (ys : list pyval) : M unit :=
  xs <- read_list l ;; write_list l (xs ++ ys).

(** [a.copy()] on the attribute values of the model: a list object is
    copied; [None] has no such method and a class is taken to have none
    either.  Values of other types that do have a [copy] method, such as a
    dict or a set, are not among the attribute values of the model. *)
Definition copy (a : attr) : M loc :=
  match a with
  | AList l => xs <- read_list l ;; new_list xs
  | _ => raise AttributeError
  end.

(** [l1 + l2] on two list objects *)
Definition list_add (l1 l2 : loc) : M loc :=
  xs <- read_list l1 ;; ys <- read_list l2 ;; new_list (xs ++ ys).

(** Truth value of an attribute value: [None] and the empty list are false,
    a class is true. *)
Definition truth_value (st : state) (a : attr) : bool :=
  match a with
  | ANone => false
  | ACls _ => true
  | AList l => match list_at st l with [] => false | _ :: _ => true end
  end.

Definition truthy (a : attr) : M bool :=
  λ st, (st, inr (truth_value st a)).

(** [a != cls] for a class [cls]: classes compare by identity, and neither
    [None] nor a list equals a class. *)
Definition ne_cls (a : attr) (c : classid) : bool :=
  negb (bool_decide (a = ACls c)).

(** [isinstance(v, list)] and [isinstance(v, str)] *)
Definition isinstance_list (v : pyval) : bool :=
  match v with VList _ => true | _ => false end.

Definition isinstance_str (v : pyval) : bool :=
  match v with VStr _ => true | _ => false end.

(** ** The decorators *)

Section Decorator.

(** The four classes this file imports from the rest of the package. *)
Variables AbstractProcessModel AbstractProcess : classid.
Variables AbstractResource AbstractSyncProtocol : classid.

(** *** [implements] *)

(** The body of [implements(proc, protocol)] before the closure is returned.
    A class is a true value, [None] a false one, so [if proc:] is the test
    for an argument that was given. *)
Definition implements (proc protocol : option classid)
    : M (option classid * option classid) :=
  match proc with
  | Some p =>
      ok <- issubclass_cls p AbstractProcess ;;
      if ok then ret tt else raise (AssertionError NoMessage)
  | None => ret tt
  end ;;;
  match protocol with
  | Some q =>
      ok <- issubclass_cls q AbstractSyncProtocol ;;
      if ok then ret tt else raise (AssertionError NoMessage)
  | None => ret tt
  end ;;;
  ret (proc, protocol).

(** The closure [decorate_process_model] returned by [implements]; [proc] and
    [protocol] are its captured variables.  The condition
    [cls.implements_process and proc and cls.implements_process != proc]
    reads the attribute twice with nothing written in between, which the
    model does once. *)
Definition implements_decorate_process_model (proc protocol : option classid)
    (cls : classid) : M classid :=
  ok <- issubclass_cls cls AbstractProcessModel ;;
  (if ok then ret tt else raise (AssertionError MsgNotProcessModel)) ;;;
  cur <- getattr cls "implements_process" ;;
  set <- truthy cur ;;
  match proc with
  | Some p =>
      if set && ne_cls cur p
      then name <- class_name cls ;;
           raise (AssertionError (MsgAlreadyProcess name))
      else ret tt
  | None => ret tt
  end ;;;
  match proc with
  | Some p => setattr cls "implements_process" (ACls p)
  | None => ret tt
  end ;;;
  cur <- getattr cls "implements_protocol" ;;
  set <- truthy cur ;;
  match protocol with
  | Some q =>
      if set && ne_cls cur q
      then name <- class_name cls ;;
           raise (AssertionError (MsgAlreadyProtocol name))
      else ret tt
  | None => ret tt
  end ;;;
  match protocol with
  | Some q => setattr cls "implements_protocol" (ACls q)
  | None => ret tt
  end ;;;
  ret cls.

(** *** [requires] *)

(** The two checks made on one item of [reqs]. *)
Definition requires_check (req : pyval) : M unit :=
  (if isinstance_list req then ret tt
   else ok <- issubclass req AbstractResource ;;
        if ok then ret tt else raise (AssertionError MsgRequiresItem)) ;;;
  match req with
  | VList rs =>
      for_each
        (λ r, ok <- issubclass r AbstractResource ;;
              if ok then ret tt else raise (AssertionError MsgRequiresList))
        rs
  | _ => ret tt
  end.

(** The body of [requires( *args)]; the result is the list object [reqs] that
    the closure captures. *)
Definition requires (args : list pyval) : M loc :=
  reqs <- new_list args ;;
  items <- read_list reqs ;;
  for_each requires_check items ;;;
  ret reqs.

(** The closure returned by [requires]. *)
Definition requires_decorate_process_model (reqs : loc) (cls : classid)
    : M classid :=
  ok <- issubclass_cls cls AbstractProcessModel ;;
  (if ok then ret tt else raise (AssertionError MsgNotProcessModel)) ;;;
  cur <- getattr cls "required_resources" ;;
  super_res <- copy cur ;;
  new <- list_add super_res reqs ;;
  setattr cls "required_resources" (AList new) ;;;
  ret cls.

(** *** [tags] *)

(** [list_depth]: [1 + max(map(list_depth, elem), default=0)] when [elem] is
    a true value and a list, that is a list that is not empty, and [0]
    otherwise. *)
Fixpoint list_depth (elem : pyval) : nat :=
  match elem with
  | VList l =>
      match l with
      | [] => 0
      | _ :: _ => 1 + max_list (list_depth <$> l)
      end
  | _ => 0
  end.

(** One turn of the loop over [arg_list]. *)
Definition tags_step (tag_list : loc) (arg : pyval) : M unit :=
  if isinstance_str arg then list_append tag_list arg
  else match arg with
       | VList l =>
           if bool_decide (list_depth arg = 1) then list_extend tag_list l
           else raise (AssertionError MsgTagsInput)
       | _ => raise (AssertionError MsgTagsInput)
       end.

(** The body of [tags( *args)]; the result is the list object [tag_list] that
    the closure captures. *)
Definition tags (args : list pyval) : M loc :=
  arg_list <- new_list args ;;
  tag_list <- new_list [] ;;
  items <- read_list arg_list ;;
  for_each (tags_step tag_list) items ;;;
  ret tag_list.

(** The closure returned by [tags]. *)
Definition tags_decorate_process_model (tag_list : loc) (cls : classid)
    : M classid :=
  ok <- issubclass_cls cls AbstractProcessModel ;;
  (if ok then ret tt else raise (AssertionError MsgNotProcessModel)) ;;;
  has <- hasattr cls "tag_list" ;;
  (if has
   then cur <- getattr cls "tag_list" ;;
        supertags <- copy cur ;;
        new <- list_add supertags tag_list ;;
        setattr cls "tag_list" (AList new)
   else setattr cls "tag_list" (AList tag_list)) ;;;
  ret cls.

(** One field of [implements], as the closure treats both of them: the
    check of the new value against the visible one, then the write. *)
Definition bind_field (name : string) (new : option classid)
    (msg : string → assert_msg) (cls : classid) : M unit :=
  cur <- getattr cls name ;;
  set <- truthy cur ;;
  match new with
  | Some p =>
      if set && ne_cls cur p
      then n <- class_name cls ;; raise (AssertionError (msg n))
      else ret tt
  | None => ret tt
  end ;;;
  match new with
  | Some p => setattr cls name (ACls p)
  | None => ret tt
  end.

Local Abbreviation field_process := (bind_field "implements_process").
Local Abbreviation field_protocol := (bind_field "implements_protocol").

(** The test every closure starts with. *)
Definition check_target (cls : classid) : M unit :=
  ok <- issubclass_cls cls AbstractProcessModel ;;
  if ok then ret tt else raise (AssertionError MsgNotProcessModel).

(** ** Vocabulary of the statements *)

(** The own attribute [name] of class [c], from [c.__dict__] alone. *)
Definition own (st : state) (c : classid) (name : string) : option attr :=
  o ← classes st !! c; c_dict o !! name.

(** [c] is a class that conforms to the process model: a class of the
    program with [AbstractProcessModel] in its method resolution order. *)
Definition conforms (st : state) (c : classid) : bool :=
  match mro st c with
  | Some m => bool_decide (AbstractProcessModel ∈ m)
  | None => false
  end.

(** [c] is a class of the program with [base] in its method resolution
    order: [c] is [base] or one of its subclasses. *)
Definition subclass (st : state) (c base : classid) : bool :=
  match mro st c with
  | Some m => bool_decide (base ∈ m)
  | None => false
  end.

(** [c] is a class of the program that does not conform. *)
Definition nonconforming (st : state) (c : classid) : bool :=
  match mro st c with
  | Some m => negb (bool_decide (AbstractProcessModel ∈ m))
  | None => false
  end.

(** Modelled from the spec: the declaration of [AbstractProcessModel] lives
    in [lava/magma/core/model/model.py], outside this file.  Section 3 of the
    specification gives every metadata field a base default (null references,
    empty sequences); the decorators read [implements_process],
    [implements_protocol] and [required_resources] without a [hasattr] test,
    so the base class is taken to declare these three, with whatever value
    they hold at the time. *)
Definition base_declares (st : state) : Prop :=
  ∀ name, name ∈ ["implements_process"; "implements_protocol";
                  "required_resources"] →
          is_Some (own st AbstractProcessModel name).

(** The state after [setattr(c, name, a)] on a class [c] of the program. *)
Definition write (st : state) (c : classid) (name : string) (a : attr)
    : state :=
  final (setattr c name a st).

(** The new value [new] of a field does not contradict its visible value
    [cur]: nothing is bound, or nothing was set, or both name one class. *)
Definition no_conflict (cur : attr) (new : option classid) : Prop :=
  match new with
  | None => True
  | Some q => cur = ANone ∨ cur = ACls q
  end.

(** The state after a new list object holding [xs] was made. *)
Definition alloc (st : state) (xs : list pyval) : state :=
  final (new_list xs st).

(** The state after the list object at [l] was updated to hold [xs]. *)
Definition update (st : state) (l : loc) (xs : list pyval) : state :=
  final (write_list l xs st).

(** [st'] differs from [st] at most in the own attribute [name] of class
    [T] and in list objects made since: every other class and every other
    own attribute of [T] is as it was, and so is every list object of
    [st]. *)
Definition writes_only (T : classid) (name : string) (st st' : state)
    : Prop :=
  (∀ c, c ≠ T → classes st' !! c = classes st !! c) ∧
  (∀ name', name' ≠ name → own st' T name' = own st T name') ∧
  heap st `prefix_of` heap st'.

(** [st'] has the classes of [st] unchanged and every list object of [st]
    unchanged. *)
Definition touches_no_class (st st' : state) : Prop :=
  classes st' = classes st ∧ heap st `prefix_of` heap st'.

(** The test the loop of [tags] makes on one argument. *)
Definition tags_accepts (arg : pyval) : bool :=
  isinstance_str arg ||
  (isinstance_list arg && bool_decide (list_depth arg = 1)).

(** The four ways one field of [implements] can go on target [T]. *)
Inductive field_case (name : string) (new : option classid)
    (msg : string → assert_msg) (T : classid) (st : state)
    : state * (exn + unit) → Prop :=
  | field_absent :
      visible st T name = None →
      field_case name new msg T st (st, inl AttributeError)
  | field_not_given cur :
      new = None → visible st T name = Some cur →
      field_case name new msg T st (st, inr tt)
  | field_conflict cur p o :
      new = Some p → visible st T name = Some cur →
      classes st !! T = Some o →
      truth_value st cur && ne_cls cur p = true →
      field_case name new msg T st
        (st, inl (AssertionError (msg (c_name o))))
  | field_write cur p :
      new = Some p → visible st T name = Some cur →
      truth_value st cur && ne_cls cur p = false →
      field_case name new msg T st (write st T name (ACls p), inr tt).

(** What the loop of [tags] makes of its arguments when it accepts them: a
    string is kept, a list is expanded in place. *)
Definition item_tags (arg : pyval) : list pyval :=
  match arg with
  | VList l => l
  | _ => [arg]
  end.

Definition flatten_tags (args : list pyval) : list pyval :=
  args ≫= item_tags.

(** An item [requires] accepts: a resource class, or a list of them. *)
Definition is_resource (st : state) (v : pyval) : bool :=
  match v with
  | VCls c =>
      match mro st c with
      | Some m => bool_decide (AbstractResource ∈ m)
      | None => false
      end
  | _ => false
  end.

Definition valid_requirement (st : state) (v : pyval) : bool :=
  match v with
  | VList rs => forallb (is_resource st) rs
  | _ => is_resource st v
  end.

(** An item made of classes of the program only: a class, or a list of
    classes. *)
Definition is_type (st : state) (v : pyval) : bool :=
  match v with
  | VCls c => bool_decide (is_Some (classes st !! c))
  | _ => false
  end.

Definition type_or_types (st : state) (v : pyval) : bool :=
  match v with
  | VList rs => forallb (is_type st) rs
  | _ => is_type st v
  end.

(** An item [tags] accepts according to its own error message: a string or
    a list of strings. *)
Definition str_or_strs (v : pyval) : bool :=
  match v with
  | VStr _ => true
  | VList l => forallb isinstance_str l
  | _ => false
  end.

(** ** A small program to run the decorators on

    [AbstractProcessModel] is class 1 and declares its three defaults,
    [AbstractProcess] is 2, [AbstractResource] 3 and [AbstractSyncProtocol]
    4.  [CPU] is a resource, [P1] and [P2] are processes, [Proto1] and
    [Proto2] protocols.  [Model] is a process model and [SubModel] its
    subclass; [Plain] is a class outside the family. *)

Definition APM_ : classid := 1%positive.
Definition AP_ : classid := 2%positive.
Definition AR_ : classid := 3%positive.
Definition ASP_ : classid := 4%positive.
Definition CPU : classid := 10%positive.
Definition P1 : classid := 11%positive.
Definition P2 : classid := 12%positive.
Definition Proto1 : classid := 13%positive.
Definition Proto2 : classid := 14%positive.
Definition Model : classid := 20%positive.
Definition SubModel : classid := 21%positive.
Definition Plain : classid := 30%positive.

Definition base_dict : gmap string attr :=
  <["implements_process" := ANone]>
    (<["implements_protocol" := ANone]>
       (<["required_resources" := AList 0]> ∅)).

Definition demo_classes : gmap classid class_obj :=
  list_to_map
    [(APM_, ClassObj "AbstractProcessModel" [] base_dict);
     (AP_, ClassObj "AbstractProcess" [] ∅);
     (AR_, ClassObj "AbstractResource" [] ∅);
     (ASP_, ClassObj "AbstractSyncProtocol" [] ∅);
     (CPU, ClassObj "CPU" [AR_] ∅);
     (P1, ClassObj "P1" [AP_] ∅);
     (P2, ClassObj "P2" [AP_] ∅);
     (Proto1, ClassObj "Proto1" [ASP_] ∅);
     (Proto2, ClassObj "Proto2" [ASP_] ∅);
     (Model, ClassObj "Model" [APM_] ∅);
     (SubModel, ClassObj "SubModel" [Model; APM_] ∅);
     (Plain, ClassObj "Plain" [] ∅)].

(** Nothing decorated yet; the heap holds the empty [required_resources] of
    the base class. *)
Definition demo : state := State demo_classes [[]].

(** [Model] decorated with [@implements(protocol=Proto1)]. *)
Definition demo_protocol : state :=
  write demo Model "implements_protocol" (ACls Proto1).

(** [Model] decorated with [@implements(proc=P1)]. *)
Definition demo_process : state :=
  write demo Model "implements_process" (ACls P1).

(** The base program with three more list objects, as captured by closures
    of [requires(CPU)], [tags("cpu")] and [tags("gpu")]. *)
Definition demo_binders : state :=
  State demo_classes [[]; [VCls CPU]; [VStr "cpu"]; [VStr "gpu"]].

(** [Model] decorated with [@tags("cpu")]: it had no [tag_list] in sight, so
    its attribute is the captured list object itself. *)
Definition demo_tagged : state :=
  write demo_binders Model "tag_list" (AList 2).

(** ** Vocabulary of the further properties *)

(** The state after [setattr(T, name, new)] when [new] was given, the state
    as it is when it was not. *)
Definition write_given (st : state) (T : classid) (name : string)
    (new : option classid) : state :=
  match new with
  | Some p => write st T name (ACls p)
  | None => st
  end.

(** A value of the kind the two fields of [implements] are declared with:
    [None] or a class. *)
Definition class_or_none (a : attr) : Prop :=
  a = ANone ∨ ∃ c, a = ACls c.

(** [v] is not a list with something in it. *)
Definition no_inner_items (v : pyval) : bool :=
  match v with
  | VList (_ :: _) => false
  | _ => true
  end.

(** A string, or a list that is not empty and holds no list with something
    in it. *)
Definition flat_item (arg : pyval) : bool :=
  match arg with
  | VStr _ => true
  | VList (x :: l) => forallb no_inner_items (x :: l)
  | _ => false
  end.

(** A value that is neither a class nor a list. *)
Definition scalar_or_tuple (v : pyval) : bool :=
  match v with
  | VCls _ | VList _ => false
  | _ => true
  end.

(** A second process model, unrelated to [Model]. *)
Definition Other : classid := 22%positive.

(** The base program with [Other] and the captured list objects of
    [demo_binders]. *)
Definition demo_two : state :=
  State (<[Other := ClassObj "Other" [APM_] ∅]> demo_classes)
    (heap demo_binders).

(** A program whose base class declares nothing: [Model] conforms but shows
    no metadata field at all.  The list object is one captured by a
    closure. *)
Definition demo_bare : state :=
  State (list_to_map
           [(APM_, ClassObj "AbstractProcessModel" [] ∅);
            (Model, ClassObj "Model" [APM_] ∅)])
    [[VCls CPU]].

(** [Model] with [required_resources = None] and [tag_list = None] set on
    it by hand. *)
Definition demo_none : state :=
  write (write demo_binders Model "required_resources" ANone) Model
    "tag_list" ANone.

(** ** Proof steps *)

(** Case analysis on the target test a closure starts with: [issubclass]
    raises [e], or answers true, or answers false, and the state is as it
    was. *)
Ltac target_test T st e H :=
  let s0 := fresh "s" in
  match goal with
  | |- context [issubclass_cls T ?base] =>
      destruct (issubclass_cls T base st) as [s0 [e|[]]] eqn:H;
      assert (s0 = st) as ->
        by (revert H; unfold issubclass_cls; destruct (mro st T); congruence)
  end.

(** ** The monad *)

Lemma bind_ok {A B} (m : M A) (k : A → M B) st st' a :
  m st = (st', inr a) → bind m k st = k a st'.
Proof. intros H. unfold bind. by rewrite H. Qed.

Lemma bind_raise {A B} (m : M A) (k : A → M B) st st' e :
  m st = (st', inl e) → bind m k st = (st', inl e).
Proof. intros H. unfold bind. by rewrite H. Qed.

Lemma bind_assoc {A B C} (m : M A) (f : A → M B) (g : B → M C) st :
  bind (bind m f) g st = bind m (λ x, bind (f x) g) st.
Proof. unfold bind. destruct (m st) as [st' [e|a]]; done. Qed.

Lemma state_eta st : State (classes st) (heap st) = st.
Proof. by destruct st. Qed.

(** ** Writing a class attribute *)

Section Write.
Context (st : state) (c : classid) (name : string) (a : attr).

Lemma write_unfold o :
  classes st !! c = Some o →
  write st c name a = State (<[c := set_own name a o]> (classes st)) (heap st).
Proof. intros H. unfold write, setattr. by rewrite H. Qed.

Lemma write_not_class : classes st !! c = None → write st c name a = st.
Proof. intros H. unfold write, setattr. by rewrite H. Qed.

Lemma setattr_run :
  is_Some (classes st !! c) →
  setattr c name a st = (write st c name a, inr tt).
Proof. intros [o H]. unfold write, setattr. by rewrite H. Qed.

Lemma heap_write : heap (write st c name a) = heap st.
Proof.
  destruct (classes st !! c) as [o|] eqn:H.
  - by rewrite (write_unfold o).
  - by rewrite write_not_class.
Qed.

Lemma list_at_write l : list_at (write st c name a) l = list_at st l.
Proof. unfold list_at. by rewrite heap_write. Qed.

Lemma truth_value_write v :
  truth_value (write st c name a) v = truth_value st v.
Proof. destruct v; simpl; [done..|]. by rewrite list_at_write. Qed.

Lemma classes_write_ne c' :
  c' ≠ c → classes (write st c name a) !! c' = classes st !! c'.
Proof.
  intros Hne. destruct (classes st !! c) as [o|] eqn:H.
  - rewrite (write_unfold o) by done. simpl. by rewrite lookup_insert_ne.
  - by rewrite write_not_class.
Qed.

Lemma classes_write_eq o :
  classes st !! c = Some o →
  classes (write st c name a) !! c = Some (set_own name a o).
Proof. intros H. rewrite (write_unfold o) by done. simpl. apply lookup_insert_eq. Qed.

Lemma mro_write c' : mro (write st c name a) c' = mro st c'.
Proof.
  unfold mro. destruct (decide (c' = c)) as [->|Hne].
  - destruct (classes st !! c) as [o|] eqn:H.
    + by rewrite (classes_write_eq o).
    + rewrite write_not_class by done. by rewrite H.
  - by rewrite classes_write_ne.
Qed.

Lemma own_write_eq :
  is_Some (classes st !! c) → own (write st c name a) c name = Some a.
Proof.
  intros [o H]. unfold own. rewrite (classes_write_eq o) by done. simpl.
  apply lookup_insert_eq.
Qed.

Lemma own_write_ne_name name' :
  name' ≠ name → own (write st c name a) c name' = own st c name'.
Proof.
  intros Hne. unfold own. destruct (classes st !! c) as [o|] eqn:H.
  - rewrite (classes_write_eq o) by done. simpl. by rewrite lookup_insert_ne.
  - rewrite write_not_class by done. by rewrite H.
Qed.

Lemma lookup_mro_write_ne name' m :
  name' ≠ name →
  lookup_mro (classes (write st c name a)) name' m
  = lookup_mro (classes st) name' m.
Proof.
  intros Hne. induction m as [|c' m IH]; [done|]. simpl. rewrite IH.
  pose proof (own_write_ne_name name' Hne) as Hown. unfold own in Hown.
  destruct (decide (c' = c)) as [->|Hc].
  - destruct (classes (write st c name a) !! c) as [o'|],
      (classes st !! c) as [o|]; simpl in Hown; try done.
    + by rewrite Hown.
    + by rewrite Hown.
    + by rewrite <- Hown.
  - by rewrite classes_write_ne.
Qed.

Lemma visible_write_ne c' name' :
  name' ≠ name → visible (write st c name a) c' name' = visible st c' name'.
Proof.
  intros Hne. unfold visible. rewrite mro_write.
  destruct (mro st c'); simpl; [|done]. by apply lookup_mro_write_ne.
Qed.

Lemma visible_write_eq :
  is_Some (classes st !! c) → visible (write st c name a) c name = Some a.
Proof.
  intros [o H]. unfold visible. rewrite mro_write. unfold mro. rewrite H.
  simpl. rewrite (classes_write_eq o) by done. simpl.
  by rewrite lookup_insert_eq.
Qed.

Lemma is_class_write c' :
  is_Some (classes (write st c name a) !! c') ↔ is_Some (classes st !! c').
Proof.
  pose proof (mro_write c') as H. unfold mro in H.
  destruct (classes (write st c name a) !! c'), (classes st !! c');
    simpl in H; try done; split; intros [? ?]; done.
Qed.

Lemma c_name_write c' :
  c_name <$> classes (write st c name a) !! c' = c_name <$> classes st !! c'.
Proof.
  destruct (decide (c' = c)) as [->|Hne].
  - destruct (classes st !! c) as [o|] eqn:H.
    + by rewrite (classes_write_eq o).
    + rewrite write_not_class by done. by rewrite H.
  - by rewrite classes_write_ne.
Qed.

Lemma conforms_write c' : conforms (write st c name a) c' = conforms st c'.
Proof. unfold conforms. by rewrite mro_write. Qed.

End Write.

(** Writing the value that is already there changes nothing. *)
Lemma write_same st c name a :
  own st c name = Some a → write st c name a = st.
Proof.
  unfold own. intros H. destruct (classes st !! c) as [o|] eqn:Ho; [|done].
  simpl in H. rewrite (write_unfold _ _ _ _ o) by done.
  rewrite <- (state_eta st) at 3. f_equal.
  apply insert_id. rewrite Ho. f_equal. destruct o as [n anc d].
  unfold set_own. simpl in *. f_equal. symmetry. by apply insert_id.
Qed.

(** ** The target test *)

Lemma check_target_ok st T :
  conforms st T = true → check_target T st = (st, inr tt).
Proof.
  unfold conforms, check_target, issubclass_cls, bind. intros H.
  destruct (mro st T); [|done]. by rewrite H.
Qed.

Lemma check_target_inv st T st' r :
  check_target T st = (st', r) →
  st' = st ∧ (r = inr tt → conforms st T = true).
Proof.
  unfold conforms, check_target, issubclass_cls, bind, ret, raise.
  destruct (mro st T); [destruct (bool_decide _)|]; naive_solver.
Qed.

Lemma conforms_is_class st T :
  conforms st T = true → is_Some (classes st !! T).
Proof.
  unfold conforms, mro. destruct (classes st !! T); [eauto|done].
Qed.

Lemma visible_is_class st T name a :
  visible st T name = Some a → is_Some (classes st !! T).
Proof.
  unfold visible, mro. destruct (classes st !! T); [eauto|done].
Qed.

(** ** One field of [implements] *)

Section Field.
Context (name : string) (msg : string → assert_msg) (T : classid).

Lemma bind_field_absent new st :
  visible st T name = None →
  bind_field name new msg T st = (st, inl AttributeError).
Proof. intros H. unfold bind_field, bind, getattr. by rewrite H. Qed.

Lemma bind_field_not_given new st cur :
  new = None → visible st T name = Some cur →
  bind_field name new msg T st = (st, inr tt).
Proof. intros -> H. unfold bind_field, bind, getattr. by rewrite H. Qed.

Lemma bind_field_conflict new st cur p o :
  new = Some p → visible st T name = Some cur →
  classes st !! T = Some o →
  truth_value st cur && ne_cls cur p = true →
  bind_field name new msg T st = (st, inl (AssertionError (msg (c_name o)))).
Proof.
  intros -> H Ho Hc. unfold bind_field, bind, getattr, truthy, class_name.
  by rewrite H, Hc, Ho.
Qed.

Lemma bind_field_write new st cur p :
  new = Some p → visible st T name = Some cur →
  truth_value st cur && ne_cls cur p = false →
  bind_field name new msg T st = (write st T name (ACls p), inr tt).
Proof.
  intros -> H Hc. unfold bind_field, bind, getattr, truthy.
  rewrite H, Hc. simpl. rewrite setattr_run; [done|].
  by eapply visible_is_class.
Qed.

Lemma bind_field_cases new st :
  field_case name new msg T st (bind_field name new msg T st).
Proof.
  destruct (visible st T name) as [cur|] eqn:H.
  - destruct new as [p|].
    + destruct (truth_value st cur && ne_cls cur p) eqn:Hc.
      * destruct (visible_is_class _ _ _ _ H) as [o Ho].
        erewrite bind_field_conflict by done. by econstructor.
      * erewrite bind_field_write by done. by econstructor.
    + erewrite bind_field_not_given by done. by econstructor.
  - rewrite bind_field_absent by done. by constructor.
Qed.

(** A field is written on the target alone, and with the given class. *)
Lemma bind_field_final new st :
  final (bind_field name new msg T st) = st ∨
  ∃ p, new = Some p ∧
       final (bind_field name new msg T st) = write st T name (ACls p).
Proof. destruct (bind_field_cases new st); simpl; eauto. Qed.

(** A second go at the field meets the state and the outcome of the first. *)
Lemma bind_field_again new st :
  bind_field name new msg T (final (bind_field name new msg T st))
  = bind_field name new msg T st.
Proof.
  destruct (bind_field_cases new st)
    as [H|cur Hn H|cur p o Hn H Ho Hc|cur p Hn H Hc];
    simpl.
  - by apply bind_field_absent.
  - by eapply bind_field_not_given.
  - by eapply bind_field_conflict.
  - pose proof (visible_is_class _ _ _ _ H) as Hcls.
    erewrite bind_field_write; [|done| |].
    + f_equal. apply write_same. by apply own_write_eq.
    + by apply visible_write_eq.
    + unfold ne_cls. rewrite bool_decide_eq_true_2 by done. apply andb_false_r.
Qed.

(** A field that leaves a state as it is does so in every state that shows
    the target the same field, the same name and the same lists. *)
Lemma bind_field_stable new st st2 r :
  bind_field name new msg T st = (st, r) →
  visible st2 T name = visible st T name →
  own st2 T name = own st T name →
  c_name <$> classes st2 !! T = c_name <$> classes st !! T →
  (∀ v, truth_value st2 v = truth_value st v) →
  bind_field name new msg T st2 = (st2, r).
Proof.
  intros Hrun Hv Hown Hname Ht.
  destruct (bind_field_cases new st)
    as [H|cur Hn H|cur p o Hn H Ho Hc|cur p Hn H Hc];
    simplify_eq.
  - apply bind_field_absent. congruence.
  - eapply bind_field_not_given; [done|]. by rewrite Hv.
  - rewrite Ho in Hname. simpl in Hname.
    destruct (classes st2 !! T) as [o2|] eqn:Ho2; [|done].
    injection Hname as <-. eapply bind_field_conflict; [done| |done|].
    + by rewrite Hv.
    + by rewrite Ht.
  - pose proof (visible_is_class _ _ _ _ H) as Hcls.
    assert (own st T name = Some (ACls p)) as Hst.
    { match goal with Hw : write _ _ _ _ = _ |- _ => rewrite <- Hw at 1 end.
      by apply own_write_eq. }
    erewrite bind_field_write; [|done| |].
    + f_equal. apply write_same. congruence.
    + by rewrite Hv.
    + by rewrite Ht.
Qed.

End Field.

(** ** The closure of [implements], field by field *)

Lemma implements_decorate_fields proc protocol T st :
  implements_decorate_process_model proc protocol T st =
  (check_target T ;;;
   bind_field "implements_process" proc MsgAlreadyProcess T ;;;
   bind_field "implements_protocol" protocol MsgAlreadyProtocol T ;;;
   ret T) st.
Proof.
  unfold implements_decorate_process_model, check_target, bind_field.
  unfold bind.
  repeat match goal with
         | |- context [match ?m ?s with _ => _ end] =>
             destruct (m s) as [? [?|?]]
         end; try done.
Qed.

Lemma implements_decorate_stops_1 proc protocol T st s1 e :
  conforms st T = true →
  field_process proc MsgAlreadyProcess T st = (s1, inl e) →
  implements_decorate_process_model proc protocol T st = (s1, inl e).
Proof.
  intros Hc H1. rewrite implements_decorate_fields.
  erewrite bind_ok by by apply check_target_ok.
  by erewrite bind_raise.
Qed.

Lemma implements_decorate_stops_2 proc protocol T st s1 s2 e :
  conforms st T = true →
  field_process proc MsgAlreadyProcess T st = (s1, inr tt) →
  field_protocol protocol MsgAlreadyProtocol T s1 = (s2, inl e) →
  implements_decorate_process_model proc protocol T st = (s2, inl e).
Proof.
  intros Hc H1 H2. rewrite implements_decorate_fields.
  erewrite bind_ok by by apply check_target_ok.
  erewrite bind_ok by done. by erewrite bind_raise.
Qed.

Lemma implements_decorate_returns proc protocol T st s1 s2 :
  conforms st T = true →
  field_process proc MsgAlreadyProcess T st = (s1, inr tt) →
  field_protocol protocol MsgAlreadyProtocol T s1 = (s2, inr tt) →
  implements_decorate_process_model proc protocol T st = (s2, inr T).
Proof.
  intros Hc H1 H2. rewrite implements_decorate_fields.
  erewrite bind_ok by by apply check_target_ok.
  erewrite bind_ok by done. by erewrite bind_ok.
Qed.

Lemma implements_decorate_rejects proc protocol T st :
  conforms st T = false →
  ∃ e, implements_decorate_process_model proc protocol T st = (st, inl e)
       ∧ ¬ ConflictError e.
Proof.
  intros Hc. rewrite implements_decorate_fields.
  destruct (check_target T st) as [s0 [e|[]]] eqn:H0;
    destruct (check_target_inv _ _ _ _ H0) as [-> Hok].
  - exists e. split; [by erewrite bind_raise|].
    revert H0. unfold check_target, issubclass_cls, bind, ret, raise.
    intros H0 [n [->| ->]]; destruct (mro st T); [destruct (bool_decide _)| |
      destruct (bool_decide _)|]; done.
  - rewrite Hok in Hc; done.
Qed.

(** What is declared on a class of the resolution order is visible. *)
Lemma lookup_mro_declared cs name m c o :
  c ∈ m → cs !! c = Some o → is_Some (c_dict o !! name) →
  is_Some (lookup_mro cs name m).
Proof.
  intros Hin Ho Hd. induction m as [|c' m IH]; [by apply elem_of_nil in Hin|].
  simpl. apply elem_of_cons in Hin as [<-|Hin].
  - rewrite Ho. destruct Hd as [a ->]. eauto.
  - destruct (cs !! c') as [o'|]; [|by apply IH].
    destruct (c_dict o' !! name); [eauto|by apply IH].
Qed.

Lemma visible_declared st T P name :
  (∃ m, mro st T = Some m ∧ P ∈ m) →
  is_Some (own st P name) → is_Some (visible st T name).
Proof.
  intros (m & Hm & Hin) Hown. unfold visible. rewrite Hm. simpl.
  unfold own in Hown. destruct (classes st !! P) as [o|] eqn:Ho; [|by destruct Hown].
  by eapply lookup_mro_declared.
Qed.

Lemma conforms_mro st T :
  conforms st T = true → ∃ m, mro st T = Some m ∧ AbstractProcessModel ∈ m.
Proof.
  unfold conforms. destruct (mro st T) as [m|]; [|done].
  intros H. exists m. split; [done|]. by apply bool_decide_eq_true in H.
Qed.

Lemma visible_base st T name :
  conforms st T = true → base_declares st →
  name ∈ ["implements_process"; "implements_protocol"; "required_resources"] →
  is_Some (visible st T name).
Proof.
  intros Hc Hb Hin. eapply visible_declared; [by apply conforms_mro|by apply Hb].
Qed.

(** The closure of [implements] run a second time, on the state the first
    run left, ends in that state with the outcome of the first run. *)
Lemma implements_decorate_again proc protocol T st :
  implements_decorate_process_model proc protocol T
    (final (implements_decorate_process_model proc protocol T st))
  = implements_decorate_process_model proc protocol T st.
Proof.
  destruct (conforms st T) eqn:Hc; cycle 1.
  { destruct (implements_decorate_rejects proc protocol T st Hc)
      as (e & He & _).
    rewrite He. simpl. exact He. }
  destruct (field_process proc MsgAlreadyProcess T st) as [s1 r1] eqn:H1.
  pose proof (bind_field_again "implements_process" MsgAlreadyProcess T proc st)
    as H1'. rewrite H1 in H1'. simpl in H1'.
  assert (conforms s1 T = true) as Hc1.
  { destruct (bind_field_final "implements_process" MsgAlreadyProcess T proc st)
      as [Hs|(p & _ & Hs)]; rewrite H1 in Hs; simpl in Hs; subst s1;
      [done|by rewrite conforms_write]. }
  destruct r1 as [e|[]].
  { rewrite (implements_decorate_stops_1 _ _ _ _ _ _ Hc H1). simpl.
    by apply implements_decorate_stops_1. }
  destruct (field_protocol protocol MsgAlreadyProtocol T s1) as [s2 r2] eqn:H2.
  pose proof (bind_field_again "implements_protocol" MsgAlreadyProtocol T
                protocol s1) as H2'. rewrite H2 in H2'. simpl in H2'.
  assert (conforms s2 T = true ∧
          field_process proc MsgAlreadyProcess T s2 = (s2, inr tt))
    as [Hc2 H12].
  { destruct (bind_field_final "implements_protocol" MsgAlreadyProtocol T
                protocol s1) as [Hs|(q & _ & Hs)]; rewrite H2 in Hs;
      simpl in Hs; subst s2; [done|].
    split; [by rewrite conforms_write|].
    eapply bind_field_stable; [exact H1'|..].
    - by apply visible_write_ne.
    - by apply own_write_ne_name.
    - by apply c_name_write.
    - intros v. by apply truth_value_write. }
  destruct r2 as [e|[]].
  - rewrite (implements_decorate_stops_2 _ _ _ _ _ _ _ Hc H1 H2). simpl.
    by eapply implements_decorate_stops_2.
  - rewrite (implements_decorate_returns _ _ _ _ _ _ Hc H1 H2). simpl.
    by eapply implements_decorate_returns.
Qed.

(** ** Properties of [implements] *)

Lemma field_process_error proc T st s1 e :
  bind_field "implements_process" proc MsgAlreadyProcess T st = (s1, inl e) →
  s1 = st ∧ ∀ n, e ≠ AssertionError (MsgAlreadyProtocol n).
Proof.
  intros H.
  pose proof (bind_field_cases "implements_process" MsgAlreadyProcess T proc st)
    as Hcase.
  rewrite H in Hcase. inversion Hcase; subst; done.
Qed.

Lemma field_protocol_error protocol T st s2 e :
  bind_field "implements_protocol" protocol MsgAlreadyProtocol T st
  = (s2, inl e) →
  s2 = st ∧ ∀ n, e ≠ AssertionError (MsgAlreadyProcess n).
Proof.
  intros H.
  pose proof (bind_field_cases "implements_protocol" MsgAlreadyProtocol T
                protocol st) as Hcase.
  rewrite H in Hcase. inversion Hcase; subst; done.
Qed.

Lemma field_ok name new msg T st s1 :
  bind_field name new msg T st = (s1, inr tt) →
  s1 = match new with Some p => write st T name (ACls p) | None => st end.
Proof.
  intros H. pose proof (bind_field_cases name msg T new st) as Hcase.
  rewrite H in Hcase. inversion Hcase; subst; done.
Qed.

(** C1, as the code has it.  When the closure of [implements] raises the
    conflict error of the process field, the state is the one it started
    from: neither field is written.  When it raises the conflict error of
    the protocol field, [implements_protocol] is not written and no other
    class is touched, but the target's own [implements_process] has been
    written already whenever a process class was given. *)
Theorem implements_conflict_writes st T proc protocol st' e :
  implements_decorate_process_model proc protocol T st = (st', inl e) →
  (∀ n, e = AssertionError (MsgAlreadyProcess n) → st' = st) ∧
  (∀ n, e = AssertionError (MsgAlreadyProtocol n) →
     own st' T "implements_protocol" = own st T "implements_protocol" ∧
     own st' T "implements_process"
     = match proc with
       | Some p => Some (ACls p)
       | None => own st T "implements_process"
       end ∧
     ∀ c, c ≠ T → classes st' !! c = classes st !! c).
Proof.
  intros Hrun. destruct (conforms st T) eqn:Hc; cycle 1.
  { destruct (implements_decorate_rejects proc protocol T st Hc)
      as (e' & He & Hn).
    rewrite He in Hrun. injection Hrun as <- <-.
    split; intros n ->; exfalso; apply Hn; exists n; eauto. }
  destruct (bind_field "implements_process" proc MsgAlreadyProcess T st)
    as [s1 [e1|[]]] eqn:H1.
  { rewrite (implements_decorate_stops_1 _ _ _ _ _ _ Hc H1) in Hrun.
    injection Hrun as <- <-.
    destruct (field_process_error _ _ _ _ _ H1) as [-> Hn].
    split; [done|]. intros n ->. by destruct (Hn n). }
  destruct (bind_field "implements_protocol" protocol MsgAlreadyProtocol T s1)
    as [s2 [e2|[]]] eqn:H2.
  - rewrite (implements_decorate_stops_2 _ _ _ _ _ _ _ Hc H1 H2) in Hrun.
    injection Hrun as <- <-.
    destruct (field_protocol_error _ _ _ _ _ H2) as [-> Hn].
    split; [intros n ->; by destruct (Hn n)|]. intros n _.
    apply field_ok in H1. subst s1. pose proof (conforms_is_class _ _ Hc).
    destruct proc as [p|]; [|done].
    split; [by apply own_write_ne_name|].
    split; [by apply own_write_eq|].
    intros c Hne. by apply classes_write_ne.
  - by rewrite (implements_decorate_returns _ _ _ _ _ _ Hc H1 H2) in Hrun.
Qed.

(** C3.  On a conforming target that shows both fields: with
    [implements_process] set to a class [A], binding another class [B]
    raises the conflict error and writes nothing, and binding [A] again
    returns the target when the protocol argument does not conflict either;
    with [implements_protocol] set to a class [P], binding another class [Q]
    raises a conflict error, and binding [P] again returns the target when
    the process argument does not conflict. *)
Theorem implements_conflict_detection st T vp vq :
  conforms st T = true →
  visible st T "implements_process" = Some vp →
  visible st T "implements_protocol" = Some vq →
  (∀ A B protocol, vp = ACls A → B ≠ A →
     ∃ e, implements_decorate_process_model (Some B) protocol T st
          = (st, inl e) ∧ ConflictError e) ∧
  (∀ A protocol, vp = ACls A → no_conflict vq protocol →
     outcome (implements_decorate_process_model (Some A) protocol T st)
     = inr T) ∧
  (∀ P Q proc, vq = ACls P → Q ≠ P →
     ∃ e, outcome (implements_decorate_process_model proc (Some Q) T st)
          = inl e ∧ ConflictError e) ∧
  (∀ P proc, vq = ACls P → no_conflict vp proc →
     outcome (implements_decorate_process_model proc (Some P) T st)
     = inr T).
Proof.
  intros Hc Hvp Hvq. destruct (conforms_is_class _ _ Hc) as [o Ho].
  assert (∀ c : classid, ne_cls (ACls c) c = false) as Hsame.
  { intros c. unfold ne_cls. by rewrite bool_decide_eq_true_2. }
  assert (∀ c c' : classid, c' ≠ c → ne_cls (ACls c) c' = true) as Hdiff.
  { intros c c' Hne. unfold ne_cls. rewrite bool_decide_eq_false_2; [done|].
    congruence. }
  assert (∀ s1 new, no_conflict vq new →
            visible s1 T "implements_protocol" = Some vq →
            ∃ s2, bind_field "implements_protocol" new MsgAlreadyProtocol T s1
                  = (s2, inr tt)) as Hq.
  { intros s1 [q|] Hnc Hv; [|eexists; by eapply bind_field_not_given].
    eexists. eapply bind_field_write; [done..|].
    destruct Hnc as [-> | ->]; [done|]. simpl. apply Hsame. }
  assert (∀ new, no_conflict vp new →
            ∃ s1, bind_field "implements_process" new MsgAlreadyProcess T st
                  = (s1, inr tt)
                  ∧ visible s1 T "implements_protocol" = Some vq) as Hp.
  { intros [p|] Hnc; [|eexists; split; [by eapply bind_field_not_given|done]].
    eexists. split.
    - eapply bind_field_write; [done..|].
      destruct Hnc as [-> | ->]; [done|]. simpl. apply Hsame.
    - by rewrite visible_write_ne. }
  repeat split.
  - intros A B protocol -> Hne. eexists. split.
    + apply implements_decorate_stops_1; [done|].
      eapply bind_field_conflict; [done..|]. simpl. by apply Hdiff.
    + exists (c_name o). eauto.
  - intros A protocol -> Hnc.
    destruct (Hp (Some A)) as (s1 & H1 & Hv1); [by right|].
    destruct (Hq s1 protocol Hnc Hv1) as (s2 & H2).
    by rewrite (implements_decorate_returns _ _ _ _ _ _ Hc H1 H2).
  - intros P Q proc -> Hne.
    destruct (bind_field "implements_process" proc MsgAlreadyProcess T st)
      as [s1 [e1|[]]] eqn:H1.
    + rewrite (implements_decorate_stops_1 _ _ _ _ _ _ Hc H1). simpl.
      exists e1. split; [done|].
      pose proof (bind_field_cases "implements_process" MsgAlreadyProcess T
                    proc st) as Hcase.
      rewrite H1 in Hcase. inversion Hcase; subst; [congruence|].
      eexists. eauto.
    + assert (visible s1 T "implements_protocol" = Some (ACls P)
              ∧ is_Some (classes s1 !! T)) as [Hv1 [o1 Ho1]].
      { apply field_ok in H1. subst s1. destruct proc as [p|]; [|by eauto].
        split; [by rewrite visible_write_ne|]. apply is_class_write. eauto. }
      eexists. split.
      * erewrite implements_decorate_stops_2; [done..|].
        eapply bind_field_conflict; [done..|]. simpl. by apply Hdiff.
      * exists (c_name o1). eauto.
  - intros P proc -> Hnc.
    destruct (Hp proc Hnc) as (s1 & H1 & Hv1).
    destruct (Hq s1 (Some P)) as (s2 & H2); [by right|done|].
    by rewrite (implements_decorate_returns _ _ _ _ _ _ Hc H1 H2).
Qed.

Lemma implements_decorate_outcome proc protocol T st :
  match outcome (implements_decorate_process_model proc protocol T st) with
  | inr r => r = T
  | inl _ => True
  end.
Proof.
  destruct (conforms st T) eqn:Hc; cycle 1.
  { by destruct (implements_decorate_rejects proc protocol T st Hc)
      as (e & -> & _). }
  destruct (bind_field "implements_process" proc MsgAlreadyProcess T st)
    as [s1 [e1|[]]] eqn:H1.
  { by rewrite (implements_decorate_stops_1 _ _ _ _ _ _ Hc H1). }
  destruct (bind_field "implements_protocol" protocol MsgAlreadyProtocol T s1)
    as [s2 [e2|[]]] eqn:H2.
  - by rewrite (implements_decorate_stops_2 _ _ _ _ _ _ _ Hc H1 H2).
  - by rewrite (implements_decorate_returns _ _ _ _ _ _ Hc H1 H2).
Qed.

(** C8.  When the closure of [implements] has returned on a target,
    running it once more with the same two classes on the state it left
    raises nothing, returns the target and leaves that state, and with it
    the target's metadata, as it is. *)
Theorem implements_idempotent st proc protocol T :
  outcome (implements_decorate_process_model proc protocol T st) = inr T →
  implements_decorate_process_model proc protocol T
    (final (implements_decorate_process_model proc protocol T st))
  = (final (implements_decorate_process_model proc protocol T st), inr T).
Proof.
  intros Hfirst. rewrite implements_decorate_again.
  destruct (implements_decorate_process_model proc protocol T st) as [s r].
  simpl in *. by subst r.
Qed.

(** C9.  [implements()] with neither argument raises nothing and changes
    nothing; its closure, applied to a conforming target, raises nothing,
    leaves the state as it is and returns the target.  Whatever the
    arguments, a closure of [implements] that returns, returns the class it
    was applied to. *)
Theorem implements_nothing_given st T :
  conforms st T = true → base_declares st →
  implements None None st = (st, inr (None, None)) ∧
  implements_decorate_process_model None None T st = (st, inr T) ∧
  ∀ proc protocol T' st',
    match outcome (implements_decorate_process_model proc protocol T' st')
    with
    | inr r => r = T'
    | inl _ => True
    end.
Proof.
  intros Hc Hb. split; [done|]. split.
  - destruct (visible_base st T "implements_process" Hc Hb) as [vp Hvp];
      [set_solver|].
    destruct (visible_base st T "implements_protocol" Hc Hb) as [vq Hvq];
      [set_solver|].
    eapply implements_decorate_returns; [done|..];
      by eapply bind_field_not_given.
  - intros. apply implements_decorate_outcome.
Qed.

(** ** List objects *)

Lemma new_list_run xs st :
  new_list xs st = (alloc st xs, inr (length (heap st))).
Proof. done. Qed.

Lemma heap_alloc st xs : heap (alloc st xs) = heap st ++ [xs].
Proof. done. Qed.

Lemma length_heap_alloc st xs :
  length (heap (alloc st xs)) = S (length (heap st)).
Proof. rewrite heap_alloc, length_app. simpl. lia. Qed.

Lemma list_at_alloc_new st xs : list_at (alloc st xs) (length (heap st)) = xs.
Proof.
  unfold list_at. rewrite heap_alloc.
  rewrite lookup_app_r by lia. by rewrite Nat.sub_diag.
Qed.

Lemma list_at_alloc_old st xs l :
  l < length (heap st) → list_at (alloc st xs) l = list_at st l.
Proof.
  intros Hl. unfold list_at. rewrite heap_alloc. by rewrite lookup_app_l.
Qed.

Lemma list_at_Some st l xs : heap st !! l = Some xs → list_at st l = xs.
Proof. unfold list_at. by intros ->. Qed.

Lemma heap_update st l xs : heap (update st l xs) = <[l := xs]> (heap st).
Proof. done. Qed.

Lemma list_at_update_eq st l xs :
  l < length (heap st) → list_at (update st l xs) l = xs.
Proof.
  intros Hl. unfold list_at. rewrite heap_update.
  by rewrite list_lookup_insert_eq.
Qed.

(** ** Reflexivity and composition of the frames *)

Lemma writes_only_refl T name st : writes_only T name st st.
Proof. by repeat split. Qed.

Lemma touches_no_class_refl st : touches_no_class st st.
Proof. by split. Qed.

Lemma touches_no_class_alloc st st' xs :
  touches_no_class st st' → touches_no_class st (alloc st' xs).
Proof.
  intros [Hc Hh]. split; [done|]. rewrite heap_alloc.
  by apply prefix_app_r.
Qed.

Lemma writes_only_write T name a st st' :
  touches_no_class st st' → writes_only T name st (write st' T name a).
Proof.
  intros [Hc Hh]. repeat split.
  - intros c Hne. rewrite classes_write_ne by done. by rewrite Hc.
  - intros name' Hne. rewrite own_write_ne_name by done. unfold own.
    by rewrite Hc.
  - by rewrite heap_write.
Qed.

(** ** The closures of [requires] and [tags] *)

Lemma issubclass_conforms st T :
  conforms st T = true →
  issubclass_cls T AbstractProcessModel st = (st, inr true).
Proof.
  unfold conforms, issubclass_cls. destruct (mro st T); [|done].
  by intros ->.
Qed.

Lemma issubclass_nonconforming st T :
  nonconforming st T = true →
  issubclass_cls T AbstractProcessModel st = (st, inr false).
Proof.
  unfold nonconforming, issubclass_cls. destruct (mro st T); [|done].
  by destruct (bool_decide _).
Qed.

Lemma getattr_run st T name a :
  visible st T name = Some a → getattr T name st = (st, inr a).
Proof. unfold getattr. by intros ->. Qed.

Lemma copy_run st l :
  copy (AList l) st = (alloc st (list_at st l), inr (length (heap st))).
Proof. done. Qed.

Lemma list_add_run st l1 l2 :
  list_add l1 l2 st
  = (alloc st (list_at st l1 ++ list_at st l2), inr (length (heap st))).
Proof. done. Qed.

(** The state a closure of [requires] or [tags] leaves when it extends the
    list object [l0] seen on the target by the captured list object [l]:
    a copy of [l0], the sum of the copy and [l], and the reference to the sum
    written on the target. *)
Lemma extend_run name l T st l0 :
  visible st T name = Some (AList l0) → l < length (heap st) →
  (cur <- getattr T name ;;
   super <- copy cur ;;
   new <- list_add super l ;;
   setattr T name (AList new)) st
  = (write (alloc (alloc st (list_at st l0)) (list_at st l0 ++ list_at st l))
       T name (AList (S (length (heap st)))), inr tt).
Proof.
  intros Hv Hl.
  erewrite bind_ok by by apply getattr_run.
  erewrite bind_ok by apply copy_run.
  erewrite bind_ok by apply list_add_run.
  rewrite list_at_alloc_new, list_at_alloc_old by done.
  rewrite length_heap_alloc. apply setattr_run.
  by eapply visible_is_class.
Qed.

Lemma requires_decorate_run reqs T st l0 :
  conforms st T = true →
  visible st T "required_resources" = Some (AList l0) →
  reqs < length (heap st) →
  requires_decorate_process_model reqs T st
  = (write (alloc (alloc st (list_at st l0))
              (list_at st l0 ++ list_at st reqs))
       T "required_resources" (AList (S (length (heap st)))), inr T).
Proof.
  intros Hc Hv Hl. unfold requires_decorate_process_model.
  erewrite bind_ok by by apply issubclass_conforms.
  erewrite bind_ok by done.
  pose proof (extend_run "required_resources" reqs T st l0 Hv Hl) as Hrun.
  rewrite <- !bind_assoc. erewrite bind_ok; [done|].
  rewrite !bind_assoc. exact Hrun.
Qed.

Lemma tags_decorate_extends tag_list T st l0 :
  conforms st T = true →
  visible st T "tag_list" = Some (AList l0) →
  tag_list < length (heap st) →
  tags_decorate_process_model tag_list T st
  = (write (alloc (alloc st (list_at st l0))
              (list_at st l0 ++ list_at st tag_list))
       T "tag_list" (AList (S (length (heap st)))), inr T).
Proof.
  intros Hc Hv Hl. unfold tags_decorate_process_model.
  erewrite bind_ok by by apply issubclass_conforms.
  erewrite bind_ok by done.
  unfold hasattr at 1. unfold bind at 1. rewrite Hv.
  rewrite bool_decide_eq_true_2 by eauto.
  by erewrite bind_ok by by apply extend_run.
Qed.

Lemma tags_decorate_first tag_list T st :
  conforms st T = true →
  visible st T "tag_list" = None →
  tags_decorate_process_model tag_list T st
  = (write st T "tag_list" (AList tag_list), inr T).
Proof.
  intros Hc Hv. unfold tags_decorate_process_model.
  erewrite bind_ok by by apply issubclass_conforms.
  erewrite bind_ok by done.
  unfold hasattr at 1. unfold bind at 1. rewrite Hv.
  rewrite bool_decide_eq_false_2 by by intros [? ?].
  erewrite bind_ok; [done|]. apply setattr_run. by apply conforms_is_class.
Qed.

Lemma requires_decorate_rejects reqs T st :
  nonconforming st T = true →
  requires_decorate_process_model reqs T st
  = (st, inl (AssertionError MsgNotProcessModel)).
Proof.
  intros Hn. unfold requires_decorate_process_model.
  erewrite bind_ok by by apply issubclass_nonconforming.
  by erewrite bind_raise.
Qed.

Lemma tags_decorate_rejects tag_list T st :
  nonconforming st T = true →
  tags_decorate_process_model tag_list T st
  = (st, inl (AssertionError MsgNotProcessModel)).
Proof.
  intros Hn. unfold tags_decorate_process_model.
  erewrite bind_ok by by apply issubclass_nonconforming.
  by erewrite bind_raise.
Qed.

Lemma implements_decorate_nonconforming proc protocol T st :
  nonconforming st T = true →
  implements_decorate_process_model proc protocol T st
  = (st, inl (AssertionError MsgNotProcessModel)).
Proof.
  intros Hn. unfold implements_decorate_process_model.
  erewrite bind_ok by by apply issubclass_nonconforming.
  by erewrite bind_raise.
Qed.

(** Whatever the outcome, the closures write one own attribute of the
    target and make new list objects; nothing else changes. *)
Lemma extend_frame name l T st :
  writes_only T name st
    (final ((cur <- getattr T name ;;
             super <- copy cur ;;
             new <- list_add super l ;;
             setattr T name (AList new)) st)).
Proof.
  destruct (visible st T name) as [[| |l0]|] eqn:Hv.
  - erewrite bind_ok by by apply getattr_run. apply writes_only_refl.
  - erewrite bind_ok by by apply getattr_run. apply writes_only_refl.
  - erewrite bind_ok by by apply getattr_run.
    erewrite bind_ok by apply copy_run.
    erewrite bind_ok by apply list_add_run.
    pose proof (visible_is_class _ _ _ _ Hv) as Hcls.
    rewrite setattr_run by done. simpl.
    apply writes_only_write.
    do 2 apply touches_no_class_alloc. apply touches_no_class_refl.
  - unfold bind, getattr. rewrite Hv. apply writes_only_refl.
Qed.

Lemma requires_decorate_frame reqs T st :
  writes_only T "required_resources" st
    (final (requires_decorate_process_model reqs T st)).
Proof.
  unfold requires_decorate_process_model.
  target_test T st e H0.
  - erewrite bind_raise by done. apply writes_only_refl.
  - erewrite bind_ok by done. erewrite bind_ok by done.
    pose proof (extend_frame "required_resources" reqs T st) as Hf.
    rewrite <- !bind_assoc. unfold bind at 1. rewrite !bind_assoc.
    destruct (bind _ _ st) as [s1 [e|[]]]; exact Hf.
  - erewrite bind_ok by done. erewrite bind_raise by done.
    apply writes_only_refl.
Qed.

Lemma tags_decorate_frame tag_list T st :
  writes_only T "tag_list" st
    (final (tags_decorate_process_model tag_list T st)).
Proof.
  unfold tags_decorate_process_model.
  target_test T st e H0.
  - erewrite bind_raise by done. apply writes_only_refl.
  - erewrite bind_ok by done. erewrite bind_ok by done.
    unfold hasattr at 1. unfold bind at 1.
    destruct (bool_decide _).
    + pose proof (extend_frame "tag_list" tag_list T st) as Hf.
      unfold bind at 1. destruct (bind _ _ st) as [s1 [e|[]]]; exact Hf.
    + unfold bind at 1, setattr.
      destruct (classes st !! T) as [o|] eqn:Ho; [|apply writes_only_refl].
      simpl. rewrite <- (write_unfold st T "tag_list" (AList tag_list) o Ho).
      apply writes_only_write, touches_no_class_refl.
  - erewrite bind_ok by done. erewrite bind_raise by done.
    apply writes_only_refl.
Qed.

(** A closure that returns after extending wrote a reference to the second
    list object made since it started. *)
Lemma extend_returns name l T st s :
  (cur <- getattr T name ;;
   super <- copy cur ;;
   new <- list_add super l ;;
   setattr T name (AList new)) st = (s, inr tt) →
  own s T name = Some (AList (S (length (heap st)))).
Proof.
  destruct (visible st T name) as [[| |l0]|] eqn:Hv.
  - by erewrite bind_ok by by apply getattr_run.
  - by erewrite bind_ok by by apply getattr_run.
  - erewrite bind_ok by by apply getattr_run.
    erewrite bind_ok by apply copy_run.
    erewrite bind_ok by apply list_add_run.
    pose proof (visible_is_class _ _ _ _ Hv) as Hcls.
    rewrite setattr_run by done. intros [= <-].
    rewrite length_app, Nat.add_1_r. by apply own_write_eq.
  - unfold bind, getattr. by rewrite Hv.
Qed.

Lemma requires_decorate_fresh reqs T st s r :
  requires_decorate_process_model reqs T st = (s, inr r) →
  own s T "required_resources" = Some (AList (S (length (heap st)))).
Proof.
  unfold requires_decorate_process_model.
  target_test T st e H0.
  - by erewrite bind_raise by done.
  - erewrite bind_ok by done. erewrite bind_ok by done.
    pose proof (extend_returns "required_resources" reqs T st) as Hf.
    rewrite <- !bind_assoc. unfold bind at 1. rewrite !bind_assoc.
    destruct (bind _ _ st) as [s1 [e|[]]]; [done|].
    intros [= <- _]. by apply Hf.
  - erewrite bind_ok by done. by erewrite bind_raise by done.
Qed.

Lemma tags_decorate_fresh tag_list T st s r :
  is_Some (visible st T "tag_list") →
  tags_decorate_process_model tag_list T st = (s, inr r) →
  own s T "tag_list" = Some (AList (S (length (heap st)))).
Proof.
  intros Hv. unfold tags_decorate_process_model.
  target_test T st e H0.
  - by erewrite bind_raise by done.
  - erewrite bind_ok by done. erewrite bind_ok by done.
    unfold hasattr at 1. unfold bind at 1.
    rewrite bool_decide_eq_true_2 by done.
    pose proof (extend_returns "tag_list" tag_list T st) as Hf.
    unfold bind at 1. destruct (bind _ _ st) as [s1 [e|[]]]; [done|].
    intros [= <- _]. by apply Hf.
  - erewrite bind_ok by done. by erewrite bind_raise by done.
Qed.

Lemma subclass_mro st T P :
  subclass st T P = true → ∃ m, mro st T = Some m ∧ P ∈ m.
Proof.
  unfold subclass. destruct (mro st T) as [m|]; [|done].
  intros H. exists m. split; [done|]. by apply bool_decide_eq_true in H.
Qed.

Lemma heap_alloc_new st xs : heap (alloc st xs) !! length (heap st) = Some xs.
Proof.
  rewrite heap_alloc, lookup_app_r by lia. by rewrite Nat.sub_diag.
Qed.

Lemma extended_state st T name R0 R1 :
  is_Some (classes st !! T) →
  own (write (alloc (alloc st R0) (R0 ++ R1)) T name
         (AList (S (length (heap st))))) T name
  = Some (AList (S (length (heap st)))) ∧
  heap (write (alloc (alloc st R0) (R0 ++ R1)) T name
          (AList (S (length (heap st))))) !! S (length (heap st))
  = Some (R0 ++ R1).
Proof.
  intros Hcls. split; [by apply own_write_eq|].
  rewrite heap_write, <- (length_heap_alloc st R0). apply heap_alloc_new.
Qed.

(** C4.  Let [P] be another class than the target [T], such as a parent,
    with its own [required_resources] (or [tag_list]) referring to the list
    object [lp] that holds [Rp].  After the closure of [requires] (or
    [tags]) ran on [T], whatever the outcome, the class [P] is as it was,
    its attribute still refers to [lp] and [lp] still holds [Rp].  When the
    closure returned, the reference it wrote on [T] is to a list object that
    did not exist before; for [tags] this needs [P], with its own
    [tag_list], to be an ancestor of [T]. *)
Theorem ancestors_untouched st T P name lp Rp :
  P ≠ T →
  own st P name = Some (AList lp) → heap st !! lp = Some Rp →
  (∀ reqs,
     classes (final (requires_decorate_process_model reqs T st)) !! P
     = classes st !! P ∧
     own (final (requires_decorate_process_model reqs T st)) P name
     = Some (AList lp) ∧
     heap (final (requires_decorate_process_model reqs T st)) !! lp
     = Some Rp ∧
     (outcome (requires_decorate_process_model reqs T st) = inr T →
      ∃ l', own (final (requires_decorate_process_model reqs T st)) T
              "required_resources" = Some (AList l') ∧
            heap st !! l' = None)) ∧
  (∀ tag_list,
     classes (final (tags_decorate_process_model tag_list T st)) !! P
     = classes st !! P ∧
     own (final (tags_decorate_process_model tag_list T st)) P name
     = Some (AList lp) ∧
     heap (final (tags_decorate_process_model tag_list T st)) !! lp
     = Some Rp ∧
     (name = "tag_list" → subclass st T P = true →
      outcome (tags_decorate_process_model tag_list T st) = inr T →
      ∃ l', own (final (tags_decorate_process_model tag_list T st)) T
              "tag_list" = Some (AList l') ∧
            heap st !! l' = None)).
Proof.
  intros Hne Hown Hlp.
  assert (∀ st', writes_only T "required_resources" st st' ∨
                 writes_only T "tag_list" st st' →
            classes st' !! P = classes st !! P ∧
            own st' P name = Some (AList lp) ∧ heap st' !! lp = Some Rp)
    as Hframe.
  { intros st' [(Hc & _ & Hh)|(Hc & _ & Hh)];
      (split; [by apply Hc|]; split;
       [unfold own; rewrite Hc by done; exact Hown
       |by eapply prefix_lookup_Some]). }
  split.
  - intros reqs.
    destruct (Hframe (final (requires_decorate_process_model reqs T st)))
      as (H1 & H2 & H3); [left; apply requires_decorate_frame|].
    repeat split; [done..|]. intros Hret.
    destruct (requires_decorate_process_model reqs T st) as [s r] eqn:Hrun.
    simpl in *. subst r. eexists.
    split; [by eapply requires_decorate_fresh|].
    apply lookup_ge_None. lia.
  - intros tag_list.
    destruct (Hframe (final (tags_decorate_process_model tag_list T st)))
      as (H1 & H2 & H3); [right; apply tags_decorate_frame|].
    repeat split; [done..|]. intros -> Hsub Hret.
    destruct (tags_decorate_process_model tag_list T st) as [s r] eqn:Hrun.
    simpl in *. subst r. eexists. split.
    + eapply tags_decorate_fresh; [|done].
      eapply visible_declared; [by apply subclass_mro|]. by rewrite Hown.
    + apply lookup_ge_None. lia.
Qed.

(** C7.  On a class that does not have [AbstractProcessModel] in its
    method resolution order, the closures of [implements], [requires] and
    [tags] raise the assertion error of the target test and leave the state,
    and so every metadata field of the class, as it was. *)
Theorem nonconforming_target_rejected st T :
  nonconforming st T = true →
  InvalidTarget (AssertionError MsgNotProcessModel) ∧
  (∀ proc protocol,
     implements_decorate_process_model proc protocol T st
     = (st, inl (AssertionError MsgNotProcessModel))) ∧
  (∀ reqs,
     requires_decorate_process_model reqs T st
     = (st, inl (AssertionError MsgNotProcessModel))) ∧
  (∀ tag_list,
     tags_decorate_process_model tag_list T st
     = (st, inl (AssertionError MsgNotProcessModel))).
Proof.
  intros Hn. split; [done|]. split; [|split]; intros.
  - by apply implements_decorate_nonconforming.
  - by apply requires_decorate_rejects.
  - by apply tags_decorate_rejects.
Qed.

(** ** Construction of the binders *)

(** A loop whose body leaves the state as it is: it passes when every item
    passes, and raises what the first failing item raises. *)
Lemma for_each_all {A} (body : A → M unit) (l : list A) st :
  (∀ x, x ∈ l → body x st = (st, inr tt)) →
  for_each body l st = (st, inr tt).
Proof.
  induction l as [|x l IH]; intros Hok; [done|]. simpl.
  erewrite bind_ok by (apply Hok; by left).
  apply IH. intros y Hy. apply Hok. by right.
Qed.

Lemma for_each_raises {A} (body : A → M unit) (P : exn → Prop)
    (l : list A) st :
  (∀ x, x ∈ l → body x st = (st, inr tt) ∨
                 ∃ e, body x st = (st, inl e) ∧ P e) →
  (∃ x, x ∈ l ∧ body x st ≠ (st, inr tt)) →
  ∃ e, for_each body l st = (st, inl e) ∧ P e.
Proof.
  induction l as [|x l IH]; intros Hbody (y & Hy & Hbad).
  { by apply elem_of_nil in Hy. }
  simpl. destruct (Hbody x ltac:(by left)) as [Hx|(e & Hx & He)].
  - erewrite bind_ok by done. apply IH.
    + intros z Hz. apply Hbody. by right.
    + apply elem_of_cons in Hy as [->|Hy]; [done|eauto].
  - exists e. by erewrite bind_raise.
Qed.

Lemma forallb_false_elem {A} (f : A → bool) (l : list A) :
  forallb f l = false → ∃ x, x ∈ l ∧ f x = false.
Proof.
  induction l as [|x l IH]; [done|]. simpl.
  destruct (f x) eqn:Hx; simpl.
  - intros H. destruct (IH H) as (y & Hy & Hf). exists y. split; [by right|done].
  - intros _. exists x. split; [by left|done].
Qed.

Lemma forallb_true_elem {A} (f : A → bool) (l : list A) x :
  forallb f l = true → x ∈ l → f x = true.
Proof.
  rewrite forallb_forall. intros H Hx. apply H. by apply list_elem_of_In.
Qed.

(** *** [requires] *)

Lemma issubclass_resource st v :
  is_resource st v = true →
  issubclass v AbstractResource st = (st, inr true).
Proof.
  destruct v as [| | |c| |]; try done. simpl. unfold issubclass_cls.
  destruct (mro st c); [|done]. by intros ->.
Qed.

Lemma issubclass_other_type st v :
  is_resource st v = false → is_type st v = true →
  issubclass v AbstractResource st = (st, inr false).
Proof.
  destruct v as [| | |c| |]; try done. simpl. unfold issubclass_cls, mro.
  intros Hr Ht. apply bool_decide_eq_true in Ht as [o Ho].
  rewrite Ho in *. simpl in *. by rewrite Hr.
Qed.

Lemma issubclass_no_type st v :
  is_type st v = false →
  issubclass v AbstractResource st = (st, inl TypeError).
Proof.
  destruct v as [| | |c| |]; try done. simpl. unfold issubclass_cls, mro.
  intros Ht. apply bool_decide_eq_false in Ht.
  destruct (classes st !! c) eqn:Ho; [|done]. destruct Ht. eauto.
Qed.

(** One class test of [requires]: it passes on a resource class and raises
    otherwise, the assertion error [msg] when the value is a class. *)
Lemma resource_test st v msg :
  (is_resource st v = true ∧
   (ok <- issubclass v AbstractResource ;;
    if ok then ret tt else raise (AssertionError msg)) st = (st, inr tt)) ∨
  (is_resource st v = false ∧
   ∃ e, (ok <- issubclass v AbstractResource ;;
         if ok then ret tt else raise (AssertionError msg)) st = (st, inl e)
        ∧ (is_type st v = true → e = AssertionError msg)).
Proof.
  destruct (is_resource st v) eqn:Hr.
  - left. split; [done|]. by erewrite bind_ok by by apply issubclass_resource.
  - right. split; [done|]. destruct (is_type st v) eqn:Ht.
    + exists (AssertionError msg).
      by erewrite bind_ok by by apply issubclass_other_type.
    + exists TypeError. by erewrite bind_raise by by apply issubclass_no_type.
Qed.

Lemma requires_check_cases st v :
  (valid_requirement st v = true ∧ requires_check v st = (st, inr tt)) ∨
  (valid_requirement st v = false ∧
   ∃ e, requires_check v st = (st, inl e) ∧
        (type_or_types st v = true → InvalidArgument e)).
Proof.
  assert (InvalidArgument (AssertionError MsgRequiresItem)) as HI
    by (right; by left).
  assert (InvalidArgument (AssertionError MsgRequiresList)) as HL
    by (right; right; by left).
  unfold requires_check.
  destruct v as [|z|s|c|rs|rs]; simpl;
    try (right; split; [done|]; exists TypeError; by split).
  - destruct (resource_test st (VCls c) MsgRequiresItem)
      as [[Hr Hrun]|[Hr (e & Hrun & He)]]; simpl in Hr.
    + left. split; [done|]. by erewrite bind_ok.
    + right. split; [done|]. exists e. split; [by erewrite bind_raise|].
      intros Ht. by rewrite He.
  - erewrite bind_ok by done.
    destruct (forallb (is_resource st) rs) eqn:Hall.
    + left. split; [done|]. apply for_each_all. intros r Hr.
      destruct (resource_test st r MsgRequiresList) as [[_ Hrun]|[Hbad _]];
        [done|].
      by rewrite (forallb_true_elem _ _ _ Hall Hr) in Hbad.
    + right. split; [done|].
      destruct (for_each_raises
                  (λ r, ok <- issubclass r AbstractResource ;;
                        if ok then ret tt
                        else raise (AssertionError MsgRequiresList))
                  (λ e, forallb (is_type st) rs = true → InvalidArgument e)
                  rs st) as (e & Hrun & He).
      * intros r Hr.
        destruct (resource_test st r MsgRequiresList)
          as [[_ Hrun]|[_ (e & Hrun & He)]]; [by left|].
        right. exists e. split; [done|]. intros Hty.
        by rewrite (He (forallb_true_elem _ _ _ Hty Hr)).
      * apply forallb_false_elem in Hall as (r & Hr & Hbad).
        exists r. split; [done|].
        destruct (resource_test st r MsgRequiresList)
          as [[Hok _]|[_ (e & -> & _)]]; [congruence|done].
      * eauto.
Qed.

Lemma read_list_run l st : read_list l st = (st, inr (list_at st l)).
Proof. done. Qed.

Lemma requires_run st args :
  (forallb (valid_requirement st) args = true ∧
   requires args st = (alloc st args, inr (length (heap st)))) ∨
  (forallb (valid_requirement st) args = false ∧
   ∃ e, requires args st = (alloc st args, inl e) ∧
        (forallb (type_or_types st) args = true → InvalidArgument e)).
Proof.
  unfold requires.
  erewrite bind_ok by apply new_list_run.
  erewrite bind_ok by apply read_list_run.
  rewrite list_at_alloc_new.
  destruct (forallb (valid_requirement st) args) eqn:Hall.
  - left. split; [done|]. erewrite bind_ok; [done|].
    apply for_each_all. intros v Hv.
    destruct (requires_check_cases (alloc st args) v)
      as [[_ Hrun]|[Hbad _]]; [done|].
    change (valid_requirement st v = false) in Hbad.
    by rewrite (forallb_true_elem _ _ _ Hall Hv) in Hbad.
  - right. split; [done|].
    destruct (for_each_raises requires_check
                (λ e, forallb (type_or_types st) args = true →
                      InvalidArgument e)
                args (alloc st args)) as (e & Hrun & He).
    + intros v Hv.
      destruct (requires_check_cases (alloc st args) v)
        as [[_ Hrun]|[_ (e & Hrun & He)]]; [by left|].
      right. exists e. split; [done|]. intros Hty. apply He.
      exact (forallb_true_elem _ _ _ Hty Hv).
    + apply forallb_false_elem in Hall as (v & Hv & Hbad).
      exists v. split; [done|].
      destruct (requires_check_cases (alloc st args) v)
        as [[Hok _]|[_ (e & -> & _)]]; [|done].
      change (valid_requirement st v = true) in Hok. congruence.
    + exists e. by erewrite bind_raise.
Qed.

(** C5, as the code has it.  Construction touches no class and changes
    no list object there was.  When every item is a resource class or a
    list, empty or not, of resource classes, [requires] returns, and the
    list object it captures holds the arguments.  On arguments made of
    classes and lists of classes, when some item is not of that kind,
    because it is a class that is not a resource or a list that holds one,
    [requires] raises one of its two assertion errors.  Nothing is said
    here of an item that is a tuple or that is not a class at all. *)
Theorem requires_accepts st args :
  touches_no_class st (final (requires args st)) ∧
  (forallb (valid_requirement st) args = true →
   requires args st = (alloc st args, inr (length (heap st))) ∧
   heap (alloc st args) !! length (heap st) = Some args) ∧
  (forallb (type_or_types st) args = true →
   forallb (valid_requirement st) args = false →
   ∃ e, requires args st = (alloc st args, inl e) ∧ InvalidArgument e).
Proof.
  split; [|split].
  - destruct (requires_run st args) as [[_ ->]|[_ (e & -> & _)]];
      apply touches_no_class_alloc, touches_no_class_refl.
  - intros Hall.
    destruct (requires_run st args) as [[_ Hrun]|[Hbad _]]; [|congruence].
    split; [done|]. apply heap_alloc_new.
  - intros Hty Hall.
    destruct (requires_run st args) as [[Hok _]|[_ (e & Hrun & He)]];
      [congruence|].
    exists e. split; [done|]. by apply He.
Qed.

(** *** [tags] *)

Lemma tags_step_accepts tag_list arg st :
  tags_accepts arg = true →
  tags_step tag_list arg st
  = (update st tag_list (list_at st tag_list ++ item_tags arg), inr tt).
Proof.
  unfold tags_accepts, tags_step.
  destruct arg as [|z|s|c|l|l]; try done. simpl. by intros ->.
Qed.

Lemma tags_step_rejects tag_list arg st :
  tags_accepts arg = false →
  tags_step tag_list arg st = (st, inl (AssertionError MsgTagsInput)).
Proof.
  unfold tags_accepts, tags_step.
  destruct arg as [|z|s|c|l|l]; try done. simpl. by intros ->.
Qed.

Lemma update_update st l xs ys : update (update st l xs) l ys = update st l ys.
Proof.
  unfold update, write_list. simpl. f_equal. apply list_insert_insert_eq.
Qed.

Lemma update_same st l :
  l < length (heap st) → update st l (list_at st l) = st.
Proof.
  destruct st as [cs h]. unfold update, write_list, list_at. simpl.
  intros Hl. f_equal. apply list_insert_id.
  destruct (lookup_lt_is_Some_2 h l Hl) as [xs Hx]. by rewrite Hx.
Qed.

Lemma length_heap_update st l xs :
  length (heap (update st l xs)) = length (heap st).
Proof. rewrite heap_update. apply length_insert. Qed.

(** The loop of [tags] on a state whose list object [tag_list] exists: it
    appends the tags of the items in their order, up to the first item it
    does not accept. *)
Lemma tags_loop tag_list args st :
  tag_list < length (heap st) →
  (forallb tags_accepts args = true ∧
   for_each (tags_step tag_list) args st
   = (update st tag_list (list_at st tag_list ++ flatten_tags args),
      inr tt)) ∨
  (forallb tags_accepts args = false ∧
   ∃ xs, for_each (tags_step tag_list) args st
         = (update st tag_list xs, inl (AssertionError MsgTagsInput))).
Proof.
  revert st. induction args as [|arg args IH]; intros st Hl.
  { left. split; [done|]. simpl. rewrite app_nil_r.
    by rewrite update_same. }
  simpl. destruct (tags_accepts arg) eqn:Harg.
  - erewrite bind_ok by by apply tags_step_accepts.
    destruct (IH (update st tag_list (list_at st tag_list ++ item_tags arg)))
      as [[Hall Hrun]|[Hall (xs & Hrun)]];
      [by rewrite length_heap_update|..].
    + left. split; [done|]. rewrite Hrun.
      rewrite list_at_update_eq by done. rewrite update_update.
      unfold flatten_tags. simpl. by rewrite app_assoc.
    + right. split; [done|]. exists xs. rewrite Hrun.
      by rewrite update_update.
  - right. split; [done|]. exists (list_at st tag_list).
    erewrite bind_raise by by apply tags_step_rejects.
    by rewrite update_same.
Qed.

(** After [tags] the heap has two more list objects: [arg_list], which holds
    the arguments, and [tag_list]. *)
Lemma tags_heap st args xs :
  heap (update (alloc (alloc st args) []) (S (length (heap st))) xs)
  = heap st ++ [args; xs].
Proof.
  rewrite heap_update, !heap_alloc, <- app_assoc. simpl.
  rewrite insert_app_r_alt by lia.
  by replace (S (length (heap st)) - length (heap st)) with 1 by lia.
Qed.

Lemma tags_run st args :
  (forallb tags_accepts args = true ∧
   tags args st = (State (classes st) (heap st ++ [args; flatten_tags args]),
                   inr (S (length (heap st))))) ∨
  (forallb tags_accepts args = false ∧
   ∃ xs, tags args st = (State (classes st) (heap st ++ [args; xs]),
                         inl (AssertionError MsgTagsInput))).
Proof.
  unfold tags.
  erewrite bind_ok by apply new_list_run.
  erewrite bind_ok by apply new_list_run.
  erewrite bind_ok by apply read_list_run.
  rewrite length_heap_alloc.
  rewrite list_at_alloc_old by (rewrite length_heap_alloc; lia).
  rewrite list_at_alloc_new.
  destruct (tags_loop (S (length (heap st))) args (alloc (alloc st args) []))
    as [[Hall Hrun]|[Hall (xs & Hrun)]].
  { rewrite !length_heap_alloc. lia. }
  - left. split; [done|]. erewrite bind_ok by done.
    unfold ret. f_equal.
    assert (list_at (alloc (alloc st args) []) (S (length (heap st))) = [])
      as ->.
    { rewrite <- (length_heap_alloc st args). apply list_at_alloc_new. }
    simpl. rewrite <- tags_heap. by rewrite <- (state_eta (update _ _ _)) at 1.
  - right. split; [done|]. exists xs. erewrite bind_raise by done.
    f_equal. rewrite <- tags_heap.
    by rewrite <- (state_eta (update _ _ _)) at 1.
Qed.

(** C2.  On a conforming target that shows the list object [l0] holding
    [R0] as its [required_resources], the closure of [requires] that
    captured the list object [reqs] holding [R1] returns the target and
    leaves on the target's own record a list object holding [R0 ++ R1];
    nothing is removed, reordered or merged.  The closure of [tags] does the
    same with [tag_list] and the list object it captured; on a target that
    shows no [tag_list] it writes the captured list itself.  The list
    object [requires] captures holds its arguments, the one [tags] captures
    holds its arguments flattened in their order. *)
Theorem binders_concatenate st T :
  conforms st T = true →
  (∀ reqs l0 R0 R1,
     visible st T "required_resources" = Some (AList l0) →
     heap st !! l0 = Some R0 → heap st !! reqs = Some R1 →
     ∃ st' l',
       requires_decorate_process_model reqs T st = (st', inr T) ∧
       own st' T "required_resources" = Some (AList l') ∧
       heap st' !! l' = Some (R0 ++ R1)) ∧
  (∀ tag_list l0 R0 R1,
     visible st T "tag_list" = Some (AList l0) →
     heap st !! l0 = Some R0 → heap st !! tag_list = Some R1 →
     ∃ st' l',
       tags_decorate_process_model tag_list T st = (st', inr T) ∧
       own st' T "tag_list" = Some (AList l') ∧
       heap st' !! l' = Some (R0 ++ R1)) ∧
  (∀ tag_list R1,
     visible st T "tag_list" = None → heap st !! tag_list = Some R1 →
     ∃ st',
       tags_decorate_process_model tag_list T st = (st', inr T) ∧
       own st' T "tag_list" = Some (AList tag_list) ∧
       heap st' !! tag_list = Some ([] ++ R1)) ∧
  (∀ args st0 st1 reqs,
     requires args st0 = (st1, inr reqs) → heap st1 !! reqs = Some args) ∧
  (∀ args st0 st1 tag_list,
     tags args st0 = (st1, inr tag_list) →
     heap st1 !! tag_list = Some (flatten_tags args)).
Proof.
  intros Hc. pose proof (conforms_is_class _ _ Hc) as Hcls.
  split; [|split; [|split; [|split]]].
  - intros reqs l0 R0 R1 Hv H0 H1. do 2 eexists.
    rewrite (requires_decorate_run reqs T st l0) by
      (try done; by eapply lookup_lt_Some).
    rewrite (list_at_Some _ _ _ H0), (list_at_Some _ _ _ H1).
    split; [done|]. by apply extended_state.
  - intros tag_list l0 R0 R1 Hv H0 H1. do 2 eexists.
    rewrite (tags_decorate_extends tag_list T st l0) by
      (try done; by eapply lookup_lt_Some).
    rewrite (list_at_Some _ _ _ H0), (list_at_Some _ _ _ H1).
    split; [done|]. by apply extended_state.
  - intros tag_list R1 Hv H1. eexists.
    rewrite tags_decorate_first by done.
    split; [done|]. split; [by apply own_write_eq|]. by rewrite heap_write.
  - intros args st0 st1 reqs Hrun.
    destruct (requires_run st0 args) as [[_ Heq]|[_ (e & Heq & _)]];
      rewrite Heq in Hrun; [|done].
    injection Hrun as <- <-. apply heap_alloc_new.
  - intros args st0 st1 tag_list Hrun.
    destruct (tags_run st0 args) as [[_ Heq]|[_ (xs & Heq)]];
      rewrite Heq in Hrun; [|done].
    injection Hrun as <- <-. simpl.
    rewrite lookup_app_r by lia.
    by replace (S (length (heap st0)) - length (heap st0)) with 1 by lia.
Qed.

Lemma max_list_strs (l : list pyval) :
  forallb isinstance_str l = true → max_list (list_depth <$> l) = 0.
Proof.
  induction l as [|v l IH]; [done|]. simpl.
  by destruct v.
Qed.

(** What [tags] gets right: a string and a list of strings that is not
    empty are accepted, and a list with a list in it that is not empty is
    not. *)
Lemma tags_accepts_strs arg :
  str_or_strs arg = true → arg ≠ VList [] → tags_accepts arg = true.
Proof.
  destruct arg as [| |s| |l|]; try done. simpl. intros Hl Hne.
  destruct l as [|v l]; [done|]. unfold tags_accepts. simpl.
  rewrite bool_decide_eq_true_2; [done|].
  change (S (max_list (list_depth <$> v :: l)) = 1).
  by rewrite max_list_strs.
Qed.

Lemma tags_rejects_deeper l v vs :
  VList (v :: vs) ∈ l → tags_accepts (VList l) = false.
Proof.
  intros Hin. unfold tags_accepts. simpl.
  apply bool_decide_eq_false_2. destruct l as [|x l]; [done|].
  intros Hd. injection Hd as Hd.
  assert (list_depth (VList (v :: vs)) ≤ max_list (list_depth <$> x :: l))
    as Hle.
  { apply max_list_elem_of_le. apply list_elem_of_fmap. eauto. }
  simpl in Hle. simpl in Hd. lia.
Qed.

(** C6, at the input on which the code departs from it.  The item
    [[[]]], a list holding a list, is not a list of strings, yet [tags]
    accepts it: [list_depth] counts the empty inner list as depth 0.  The tag
    list it captures then holds the empty list as a tag. *)
Theorem tags_accepts_list_of_empty_list st :
  str_or_strs (VList [VList []]) = false ∧
  list_depth (VList [VList []]) = 1 ∧
  tags [VList [VList []]] st
  = (State (classes st)
       (heap st ++ [[VList [VList []]]; [VList []]]),
     inr (S (length (heap st)))).
Proof.
  split; [done|]. split; [done|].
  by destruct (tags_run st [VList [VList []]]) as [[_ ->]|[Hbad _]].
Qed.

(** C10.  When an item of the arguments is the empty list (or the empty
    tuple) [tags] raises its assertion error, although the empty list holds
    no list and nothing that is not a string.  No class is touched. *)
Theorem tags_rejects_empty_list st args :
  VList [] ∈ args ∨ VTuple [] ∈ args →
  str_or_strs (VList []) = true ∧
  InvalidArgument (AssertionError MsgTagsInput) ∧
  ∃ st', tags args st = (st', inl (AssertionError MsgTagsInput)) ∧
         touches_no_class st st'.
Proof.
  intros Hin. split; [done|]. split; [by do 3 right|].
  destruct (tags_run st args) as [[Hall _]|[_ (xs & ->)]].
  - destruct Hin as [Hin|Hin];
      by pose proof (forallb_true_elem _ _ _ Hall Hin).
  - eexists. split; [done|]. split; [done|]. simpl. by apply prefix_app_r.
Qed.

(** ** Further properties of the closure of [implements] *)

Lemma heap_write_given st T name new :
  heap (write_given st T name new) = heap st.
Proof. destruct new; [apply heap_write|done]. Qed.

Lemma classes_write_given_ne st T name new c :
  c ≠ T → classes (write_given st T name new) !! c = classes st !! c.
Proof. intros Hne. destruct new; [by apply classes_write_ne|done]. Qed.

Lemma own_write_given_ne st T name new name' :
  name' ≠ name → own (write_given st T name new) T name' = own st T name'.
Proof. intros Hne. destruct new; [by apply own_write_ne_name|done]. Qed.

Lemma visible_write_given_ne st T name new c name' :
  name' ≠ name →
  visible (write_given st T name new) c name' = visible st c name'.
Proof. intros Hne. destruct new; [by apply visible_write_ne|done]. Qed.

Lemma conforms_write_given st T name new c :
  conforms (write_given st T name new) c = conforms st c.
Proof. destruct new; [apply conforms_write|done]. Qed.

Lemma field_state name new msg T st :
  final (bind_field name new msg T st) = st ∨
  final (bind_field name new msg T st) = write_given st T name new.
Proof.
  destruct (bind_field_final name msg T new st) as [H|(p & -> & H)]; eauto.
Qed.

(** The state a closure of [implements] can leave: the one it started from,
    or that state with the first field bound, or with both. *)
Lemma implements_decorate_state proc protocol T st :
  final (implements_decorate_process_model proc protocol T st) = st ∨
  final (implements_decorate_process_model proc protocol T st)
  = write_given st T "implements_process" proc ∨
  final (implements_decorate_process_model proc protocol T st)
  = write_given (write_given st T "implements_process" proc) T
      "implements_protocol" protocol.
Proof.
  destruct (conforms st T) eqn:Hc; cycle 1.
  { destruct (implements_decorate_rejects proc protocol T st Hc)
      as (e & -> & _). by left. }
  destruct (bind_field "implements_process" proc MsgAlreadyProcess T st)
    as [s1 [e1|[]]] eqn:H1.
  { rewrite (implements_decorate_stops_1 _ _ _ _ _ _ Hc H1).
    destruct (field_process_error _ _ _ _ _ H1) as [-> _]. by left. }
  apply field_ok in H1 as Hs1. fold (write_given st T "implements_process" proc)
    in Hs1. subst s1.
  destruct (bind_field "implements_protocol" protocol MsgAlreadyProtocol T
              (write_given st T "implements_process" proc))
    as [s2 [e2|[]]] eqn:H2.
  - rewrite (implements_decorate_stops_2 _ _ _ _ _ _ _ Hc H1 H2).
    destruct (field_protocol_error _ _ _ _ _ H2) as [-> _]. right. by left.
  - rewrite (implements_decorate_returns _ _ _ _ _ _ Hc H1 H2).
    apply field_ok in H2. right. right. done.
Qed.

Lemma implements_decorate_success proc protocol T st s r :
  implements_decorate_process_model proc protocol T st = (s, inr r) →
  conforms st T = true ∧
  s = write_given (write_given st T "implements_process" proc) T
        "implements_protocol" protocol.
Proof.
  intros Hrun. destruct (conforms st T) eqn:Hc; cycle 1.
  { destruct (implements_decorate_rejects proc protocol T st Hc)
      as (e & He & _). by rewrite He in Hrun. }
  split; [done|].
  destruct (bind_field "implements_process" proc MsgAlreadyProcess T st)
    as [s1 [e1|[]]] eqn:H1.
  { by rewrite (implements_decorate_stops_1 _ _ _ _ _ _ Hc H1) in Hrun. }
  destruct (bind_field "implements_protocol" protocol MsgAlreadyProtocol T s1)
    as [s2 [e2|[]]] eqn:H2.
  - by rewrite (implements_decorate_stops_2 _ _ _ _ _ _ _ Hc H1 H2) in Hrun.
  - rewrite (implements_decorate_returns _ _ _ _ _ _ Hc H1 H2) in Hrun.
    injection Hrun as <- _. apply field_ok in H1, H2. by subst.
Qed.

(** X1.  Whatever its outcome, the closure of [implements] makes and
    changes no list object, leaves every class other than the target as it
    was, and on the target writes nothing but [implements_process] and
    [implements_protocol]: every other own attribute, such as
    [required_resources] and [tag_list], is as it was. *)
Theorem implements_decorate_frame proc protocol T st :
  heap (final (implements_decorate_process_model proc protocol T st))
  = heap st ∧
  (∀ c, c ≠ T →
     classes (final (implements_decorate_process_model proc protocol T st))
       !! c = classes st !! c) ∧
  (∀ name, name ≠ "implements_process" → name ≠ "implements_protocol" →
     own (final (implements_decorate_process_model proc protocol T st)) T name
     = own st T name).
Proof.
  destruct (implements_decorate_state proc protocol T st) as [->|[->| ->]].
  - done.
  - split; [apply heap_write_given|]. split.
    + intros c Hne. by apply classes_write_given_ne.
    + intros name H1 _. by apply own_write_given_ne.
  - split; [by rewrite !heap_write_given|]. split.
    + intros c Hne. by rewrite !classes_write_given_ne.
    + intros name H1 H2. by rewrite !own_write_given_ne.
Qed.

(** X2.  After the closure of [implements] returned, the target shows what
    was bound: a field that was given reads as the given class, on the
    target's own record, and a field that was not given reads as it did
    before. *)
Theorem implements_decorate_reads_back proc protocol T st s :
  implements_decorate_process_model proc protocol T st = (s, inr T) →
  visible s T "implements_process"
  = match proc with
    | Some p => Some (ACls p)
    | None => visible st T "implements_process"
    end ∧
  visible s T "implements_protocol"
  = match protocol with
    | Some q => Some (ACls q)
    | None => visible st T "implements_protocol"
    end ∧
  (∀ p, proc = Some p → own s T "implements_process" = Some (ACls p)) ∧
  (∀ q, protocol = Some q → own s T "implements_protocol" = Some (ACls q)).
Proof.
  intros Hrun. apply implements_decorate_success in Hrun as [Hc ->].
  pose proof (conforms_is_class _ _ Hc) as Hcls.
  assert (is_Some (classes (write_given st T "implements_process" proc) !! T))
    as Hcls1.
  { destruct proc; [by apply is_class_write|done]. }
  split; [|split; [|split]].
  - rewrite visible_write_given_ne by done.
    destruct proc; [by apply visible_write_eq|done].
  - destruct protocol as [q|]; [by apply visible_write_eq|].
    simpl. by apply visible_write_given_ne.
  - intros p ->. rewrite own_write_given_ne by done. by apply own_write_eq.
  - intros q ->. by apply own_write_eq.
Qed.

(** X3.  On a conforming target, with the base class declaring its
    defaults, the closure of [implements] can fail in one way only: with a
    conflict error, which carries the name of the decorated class itself.
    No [AttributeError] or [TypeError] comes out of it. *)
Theorem implements_decorate_errors proc protocol T st o :
  conforms st T = true → base_declares st →
  classes st !! T = Some o →
  outcome (implements_decorate_process_model proc protocol T st) = inr T ∨
  outcome (implements_decorate_process_model proc protocol T st)
  = inl (AssertionError (MsgAlreadyProcess (c_name o))) ∨
  outcome (implements_decorate_process_model proc protocol T st)
  = inl (AssertionError (MsgAlreadyProtocol (c_name o))).
Proof.
  intros Hc Hb Ho.
  destruct (visible_base st T "implements_process" Hc Hb) as [vp Hvp];
    [set_solver|].
  destruct (visible_base st T "implements_protocol" Hc Hb) as [vq Hvq];
    [set_solver|].
  pose proof (bind_field_cases "implements_process" MsgAlreadyProcess T proc
                st) as Hcase1.
  destruct (bind_field "implements_process" proc MsgAlreadyProcess T st)
    as [s1 [e1|[]]] eqn:H1.
  { rewrite (implements_decorate_stops_1 _ _ _ _ _ _ Hc H1). right. left.
    simpl. inversion Hcase1; subst; congruence. }
  apply field_ok in H1 as Hs1.
  fold (write_given st T "implements_process" proc) in Hs1. subst s1.
  pose proof (bind_field_cases "implements_protocol" MsgAlreadyProtocol T
                protocol (write_given st T "implements_process" proc))
    as Hcase2.
  destruct (bind_field "implements_protocol" protocol MsgAlreadyProtocol T
              (write_given st T "implements_process" proc))
    as [s2 [e2|[]]] eqn:H2.
  - rewrite (implements_decorate_stops_2 _ _ _ _ _ _ _ Hc H1 H2).
    right. right. simpl.
    assert (c_name <$> classes (write_given st T "implements_process" proc)
                         !! T = Some (c_name o)) as Hname.
    { destruct proc; simpl; [rewrite c_name_write|]; by rewrite Ho. }
    inversion Hcase2 as [Habs| |cur p o2 Hn Hv Ho2 Hconf|]; subst.
    + rewrite visible_write_given_ne in Habs by done. congruence.
    + rewrite Ho2 in Hname. simpl in Hname. congruence.
  - rewrite (implements_decorate_returns _ _ _ _ _ _ Hc H1 H2). by left.
Qed.

(** ** Further properties of the closures of [requires] and [tags] *)

(** The block that extends a list attribute either finds a list object and
    runs to its end, or raises [AttributeError] at once. *)
Lemma extend_cases name l T st :
  (∃ l0, visible st T name = Some (AList l0) ∧
         (cur <- getattr T name ;;
          super <- copy cur ;;
          new <- list_add super l ;;
          setattr T name (AList new)) st
         = (write (alloc (alloc st (list_at st l0))
                     (list_at st l0 ++ list_at (alloc st (list_at st l0)) l))
              T name (AList (S (length (heap st)))), inr tt)) ∨
  ((∀ l0, visible st T name ≠ Some (AList l0)) ∧
   (cur <- getattr T name ;;
    super <- copy cur ;;
    new <- list_add super l ;;
    setattr T name (AList new)) st = (st, inl AttributeError)).
Proof.
  destruct (visible st T name) as [[| |l0]|] eqn:Hv.
  - right. split; [done|]. by erewrite bind_ok by by apply getattr_run.
  - right. split; [done|]. by erewrite bind_ok by by apply getattr_run.
  - left. exists l0. split; [done|].
    erewrite bind_ok by by apply getattr_run.
    erewrite bind_ok by apply copy_run.
    erewrite bind_ok by apply list_add_run.
    rewrite list_at_alloc_new, length_heap_alloc. apply setattr_run.
    by eapply visible_is_class.
  - right. split; [done|]. unfold bind, getattr. by rewrite Hv.
Qed.

Lemma requires_decorate_raises reqs T st s e :
  requires_decorate_process_model reqs T st = (s, inl e) → s = st.
Proof.
  unfold requires_decorate_process_model. target_test T st e0 H0.
  - erewrite bind_raise by done. congruence.
  - erewrite bind_ok by done. erewrite bind_ok by done.
    rewrite <- !bind_assoc. unfold bind at 1. rewrite !bind_assoc.
    destruct (extend_cases "required_resources" reqs T st)
      as [(l0 & _ & ->)|[_ ->]]; [done|congruence].
  - erewrite bind_ok by done. erewrite bind_raise by done. congruence.
Qed.

Lemma tags_decorate_raises tag_list T st s e :
  tags_decorate_process_model tag_list T st = (s, inl e) → s = st.
Proof.
  unfold tags_decorate_process_model. target_test T st e0 H0.
  - erewrite bind_raise by done. congruence.
  - erewrite bind_ok by done. erewrite bind_ok by done.
    unfold hasattr at 1. unfold bind at 1.
    destruct (bool_decide _).
    + unfold bind at 1.
      destruct (extend_cases "tag_list" tag_list T st)
        as [(l0 & _ & ->)|[_ ->]]; [done|congruence].
    + unfold bind at 1, setattr.
      destruct (classes st !! T); [done|congruence].
  - erewrite bind_ok by done. erewrite bind_raise by done. congruence.
Qed.

(** X4.  The closures of [requires] and [tags] are all-or-nothing: when one
    of them raises, whatever the error, the state is exactly the one it
    started from; no attribute was written and no list object made. *)
Theorem extending_closures_all_or_nothing l T st e :
  (outcome (requires_decorate_process_model l T st) = inl e →
   final (requires_decorate_process_model l T st) = st) ∧
  (outcome (tags_decorate_process_model l T st) = inl e →
   final (tags_decorate_process_model l T st) = st).
Proof.
  split; intros Hout.
  - destruct (requires_decorate_process_model l T st) as [s r] eqn:Hrun.
    simpl in *. subst r. by eapply requires_decorate_raises.
  - destruct (tags_decorate_process_model l T st) as [s r] eqn:Hrun.
    simpl in *. subst r. by eapply tags_decorate_raises.
Qed.

(** X5.  The closure of [requires] reads [cls.required_resources] without
    a test: on a conforming target that shows no such attribute, or shows
    [None] for it, it raises [AttributeError] and changes nothing.  The
    closure of [tags] tests [hasattr] first, so a missing [tag_list] is no
    error and the closure returns, but a [tag_list] that is [None] raises
    [AttributeError] as well. *)
Theorem closures_need_a_list l T st :
  conforms st T = true →
  (visible st T "required_resources" = None ∨
   visible st T "required_resources" = Some ANone →
   requires_decorate_process_model l T st = (st, inl AttributeError)) ∧
  (visible st T "tag_list" = Some ANone →
   tags_decorate_process_model l T st = (st, inl AttributeError)) ∧
  (visible st T "tag_list" = None →
   outcome (tags_decorate_process_model l T st) = inr T).
Proof.
  intros Hc. split; [|split].
  - intros Hno. unfold requires_decorate_process_model.
    erewrite bind_ok by by apply issubclass_conforms.
    erewrite bind_ok by done.
    rewrite <- !bind_assoc. unfold bind at 1. rewrite !bind_assoc.
    destruct (extend_cases "required_resources" l T st)
      as [(l0 & Hv & _)|[_ ->]]; [|done].
    destruct Hno; congruence.
  - intros Hnone. unfold tags_decorate_process_model.
    erewrite bind_ok by by apply issubclass_conforms.
    erewrite bind_ok by done.
    unfold hasattr at 1. unfold bind at 1.
    rewrite bool_decide_eq_true_2 by (rewrite Hnone; eauto).
    unfold bind at 1.
    destruct (extend_cases "tag_list" l T st)
      as [(l0 & Hv & _)|[_ ->]]; [congruence|done].
  - intros Hnone. by rewrite tags_decorate_first.
Qed.

(** ** The state after a list attribute was extended *)

Section Extended.
Context (st : state) (T : classid) (name : string) (A B : list pyval).

Let s' : state :=
  write (alloc (alloc st A) B) T name (AList (S (length (heap st)))).

Lemma extended_heap : heap s' = heap st ++ [A; B].
Proof.
  unfold s'. rewrite heap_write, !heap_alloc, <- app_assoc. done.
Qed.

Lemma extended_old l xs : heap st !! l = Some xs → heap s' !! l = Some xs.
Proof. intros H. rewrite extended_heap. by apply lookup_app_l_Some. Qed.

Lemma extended_new : heap s' !! S (length (heap st)) = Some B.
Proof.
  rewrite extended_heap, lookup_app_r by lia.
  by replace (S (length (heap st)) - length (heap st)) with 1 by lia.
Qed.

Lemma extended_length : length (heap s') = S (S (length (heap st))).
Proof. rewrite extended_heap, length_app. simpl. lia. Qed.

Lemma extended_conforms c : conforms s' c = conforms st c.
Proof. unfold s'. by rewrite conforms_write. Qed.

Lemma extended_mro c : mro s' c = mro st c.
Proof. unfold s'. by rewrite mro_write. Qed.

Lemma extended_other c : c ≠ T → classes s' !! c = classes st !! c.
Proof. intros Hne. unfold s'. by rewrite classes_write_ne. Qed.

Lemma extended_visible :
  is_Some (classes st !! T) →
  visible s' T name = Some (AList (S (length (heap st)))).
Proof. intros Hcls. unfold s'. by apply visible_write_eq. Qed.

Lemma extended_own :
  is_Some (classes st !! T) →
  own s' T name = Some (AList (S (length (heap st)))).
Proof. intros Hcls. unfold s'. by apply own_write_eq. Qed.

End Extended.

(** A class sees an attribute as before when no class of its resolution
    order changed. *)
Lemma lookup_mro_frame cs cs' name m :
  (∀ c, c ∈ m → cs' !! c = cs !! c) →
  lookup_mro cs' name m = lookup_mro cs name m.
Proof.
  induction m as [|c m IH]; intros Hsame; [done|]. simpl.
  rewrite (Hsame c) by by left. rewrite IH; [done|].
  intros c' Hc'. apply Hsame. by right.
Qed.

Lemma visible_frame st st' T C name :
  (∀ c, c ≠ T → classes st' !! c = classes st !! c) →
  is_Some (classes st !! C) → subclass st C T = false →
  visible st' C name = visible st C name.
Proof.
  intros Hsame [o Ho] Hsub. unfold subclass, mro in Hsub.
  rewrite Ho in Hsub. simpl in Hsub. apply bool_decide_eq_false in Hsub.
  assert (∀ c, c ∈ C :: c_ancestors o → c ≠ T) as Hne by (intros c Hc ->; done).
  unfold visible, mro. rewrite Hsame, Ho by (apply Hne; by left). simpl.
  apply (lookup_mro_frame _ _ name (C :: c_ancestors o)).
  intros c Hc. by apply Hsame, Hne.
Qed.

(** A class without the attribute of its own shows the one its first parent
    owns. *)
Lemma visible_inherits st N oN M rest name a :
  classes st !! N = Some oN → c_dict oN !! name = None →
  c_ancestors oN = M :: rest → own st M name = Some a →
  visible st N name = Some a.
Proof.
  intros Ho Hd Hanc Hown. unfold visible, mro. rewrite Ho. simpl.
  rewrite Ho, Hd, Hanc. simpl. unfold own in Hown.
  destruct (classes st !! M) as [oM|]; [|done]. simpl in Hown.
  by rewrite Hown.
Qed.

Lemma requires_decorate_extends reqs T st l0 R0 R1 :
  conforms st T = true →
  visible st T "required_resources" = Some (AList l0) →
  heap st !! l0 = Some R0 → heap st !! reqs = Some R1 →
  requires_decorate_process_model reqs T st
  = (write (alloc (alloc st R0) (R0 ++ R1)) T "required_resources"
       (AList (S (length (heap st)))), inr T).
Proof.
  intros Hc Hv H0 H1.
  rewrite (requires_decorate_run reqs T st l0) by
    (try done; by eapply lookup_lt_Some).
  by rewrite (list_at_Some _ _ _ H0), (list_at_Some _ _ _ H1).
Qed.

Lemma tags_decorate_extends_to tag_list T st l0 R0 R1 :
  conforms st T = true →
  visible st T "tag_list" = Some (AList l0) →
  heap st !! l0 = Some R0 → heap st !! tag_list = Some R1 →
  tags_decorate_process_model tag_list T st
  = (write (alloc (alloc st R0) (R0 ++ R1)) T "tag_list"
       (AList (S (length (heap st)))), inr T).
Proof.
  intros Hc Hv H0 H1.
  rewrite (tags_decorate_extends tag_list T st l0) by
    (try done; by eapply lookup_lt_Some).
  by rewrite (list_at_Some _ _ _ H0), (list_at_Some _ _ _ H1).
Qed.

(** X6.  Stacking two closures of [requires] on one target accumulates:
    with [R0] in sight and closures that captured [R1] and [R2], applied in
    that order, both return and the target's own list holds
    [(R0 ++ R1) ++ R2].  The same closure applied twice therefore adds its
    items twice.  Two closures of [tags] accumulate in the same way, also on
    a target that shows no [tag_list] at first, where the result is
    [R1 ++ R2]. *)
Theorem closures_stack T st l1 l2 R1 R2 :
  conforms st T = true →
  heap st !! l1 = Some R1 → heap st !! l2 = Some R2 →
  (∀ l0 R0,
     visible st T "required_resources" = Some (AList l0) →
     heap st !! l0 = Some R0 →
     ∃ s1 s2 l',
       requires_decorate_process_model l1 T st = (s1, inr T) ∧
       requires_decorate_process_model l2 T s1 = (s2, inr T) ∧
       own s2 T "required_resources" = Some (AList l') ∧
       heap s2 !! l' = Some ((R0 ++ R1) ++ R2)) ∧
  (∀ l0 R0,
     visible st T "tag_list" = Some (AList l0) →
     heap st !! l0 = Some R0 →
     ∃ s1 s2 l',
       tags_decorate_process_model l1 T st = (s1, inr T) ∧
       tags_decorate_process_model l2 T s1 = (s2, inr T) ∧
       own s2 T "tag_list" = Some (AList l') ∧
       heap s2 !! l' = Some ((R0 ++ R1) ++ R2)) ∧
  (visible st T "tag_list" = None →
   ∃ s1 s2 l',
     tags_decorate_process_model l1 T st = (s1, inr T) ∧
     tags_decorate_process_model l2 T s1 = (s2, inr T) ∧
     own s2 T "tag_list" = Some (AList l') ∧
     heap s2 !! l' = Some (R1 ++ R2)).
Proof.
  intros Hc H1 H2. pose proof (conforms_is_class _ _ Hc) as Hcls.
  split; [|split].
  - intros l0 R0 Hv H0. do 3 eexists.
    split; [by eapply requires_decorate_extends|].
    split; [|split].
    + eapply requires_decorate_extends.
      * by rewrite extended_conforms.
      * by apply extended_visible.
      * apply extended_new.
      * by apply extended_old.
    + apply extended_own. apply is_class_write. exact Hcls.
    + apply extended_new.
  - intros l0 R0 Hv H0. do 3 eexists.
    split; [by eapply tags_decorate_extends_to|].
    split; [|split].
    + eapply tags_decorate_extends_to.
      * by rewrite extended_conforms.
      * by apply extended_visible.
      * apply extended_new.
      * by apply extended_old.
    + apply extended_own. apply is_class_write. exact Hcls.
    + apply extended_new.
  - intros Hv. do 3 eexists.
    split; [by apply tags_decorate_first|].
    split; [|split].
    + eapply tags_decorate_extends_to.
      * by rewrite conforms_write.
      * by apply visible_write_eq.
      * by rewrite heap_write.
      * by rewrite heap_write.
    + apply extended_own. apply is_class_write. exact Hcls.
    + apply extended_new.
Qed.

Lemma extended_own_other st T name A B c name' :
  c ≠ T →
  own (write (alloc (alloc st A) B) T name (AList (S (length (heap st)))))
    c name' = own st c name'.
Proof. intros Hne. unfold own. by rewrite extended_other. Qed.

Lemma subclass_false_ne st C T :
  is_Some (classes st !! C) → subclass st C T = false → C ≠ T.
Proof.
  intros [o Ho] Hsub ->. unfold subclass, mro in Hsub. rewrite Ho in Hsub.
  simpl in Hsub. apply bool_decide_eq_false in Hsub. apply Hsub. by left.
Qed.

(** X7.  Requirements accumulate down a class hierarchy.  Let [N] be a
    subclass whose first parent is [M] and which has no
    [required_resources] of its own.  After a closure that captured [R1]
    ran on [M], which showed [R0], and one that captured [R2] ran on [N],
    [M]'s own list holds [R0 ++ R1], [N]'s own list holds
    [(R0 ++ R1) ++ R2], and the two are different list objects. *)
Theorem requirements_accumulate_down st M N oN rest l0 R0 l1 R1 l2 R2 :
  M ≠ N →
  classes st !! N = Some oN → c_ancestors oN = M :: rest →
  c_dict oN !! "required_resources" = None →
  conforms st M = true → conforms st N = true →
  visible st M "required_resources" = Some (AList l0) →
  heap st !! l0 = Some R0 → heap st !! l1 = Some R1 →
  heap st !! l2 = Some R2 →
  ∃ s1 s2 lM lN,
    requires_decorate_process_model l1 M st = (s1, inr M) ∧
    requires_decorate_process_model l2 N s1 = (s2, inr N) ∧
    own s2 M "required_resources" = Some (AList lM) ∧
    heap s2 !! lM = Some (R0 ++ R1) ∧
    own s2 N "required_resources" = Some (AList lN) ∧
    heap s2 !! lN = Some ((R0 ++ R1) ++ R2) ∧
    lM ≠ lN.
Proof.
  intros Hne HoN Hanc Hd HcM HcN Hv H0 H1 H2.
  pose proof (conforms_is_class _ _ HcM) as HclsM.
  do 4 eexists.
  split; [by eapply requires_decorate_extends|].
  split; [|split; [|split; [|split; [|split]]]].
  - eapply requires_decorate_extends.
    + by rewrite extended_conforms.
    + eapply visible_inherits; [|done..|by apply extended_own].
      rewrite extended_other by done. exact HoN.
    + apply extended_new.
    + by apply extended_old.
  - rewrite extended_own_other by done. by apply extended_own.
  - apply extended_old, extended_new.
  - apply extended_own. apply is_class_write. by exists oN.
  - apply extended_new.
  - rewrite extended_length. lia.
Qed.

(** X8.  One closure of [requires] serves several targets.  Applied to two
    conforming classes, the second of which does not derive from the first,
    it gives each its own new list, what the class showed followed by the
    captured items, and the captured list object itself still holds what it
    held. *)
Theorem requires_closure_shared st T1 T2 a1 R01 a2 R02 l R1 :
  conforms st T1 = true → conforms st T2 = true →
  subclass st T2 T1 = false →
  visible st T1 "required_resources" = Some (AList a1) →
  heap st !! a1 = Some R01 →
  visible st T2 "required_resources" = Some (AList a2) →
  heap st !! a2 = Some R02 →
  heap st !! l = Some R1 →
  ∃ s1 s2 l1 l2,
    requires_decorate_process_model l T1 st = (s1, inr T1) ∧
    requires_decorate_process_model l T2 s1 = (s2, inr T2) ∧
    own s2 T1 "required_resources" = Some (AList l1) ∧
    heap s2 !! l1 = Some (R01 ++ R1) ∧
    own s2 T2 "required_resources" = Some (AList l2) ∧
    heap s2 !! l2 = Some (R02 ++ R1) ∧
    l1 ≠ l2 ∧ heap s2 !! l = Some R1.
Proof.
  intros Hc1 Hc2 Hsub Hv1 H01 Hv2 H02 Hl.
  pose proof (conforms_is_class _ _ Hc1) as Hcls1.
  pose proof (conforms_is_class _ _ Hc2) as Hcls2.
  pose proof (subclass_false_ne _ _ _ Hcls2 Hsub) as Hne.
  do 4 eexists.
  split; [by eapply requires_decorate_extends|].
  split; [|split; [|split; [|split; [|split; [|split]]]]].
  - eapply requires_decorate_extends.
    + by rewrite extended_conforms.
    + rewrite <- Hv2. apply (visible_frame st _ T1); [|done..].
      intros c Hc. by apply extended_other.
    + by apply extended_old.
    + by apply extended_old.
  - rewrite extended_own_other by done. by apply extended_own.
  - apply extended_old, extended_new.
  - apply extended_own. by apply is_class_write.
  - apply extended_new.
  - rewrite extended_length. lia.
  - by do 2 apply extended_old.
Qed.

(** X9.  A closure of [tags] applied to a class that shows no [tag_list]
    stores the captured list object itself, not a copy.  Applied to two such
    classes, the second not deriving from the first, it makes both
    attributes refer to that one list object, and makes no list object at
    all. *)
Theorem tags_closure_aliases st T1 T2 l :
  conforms st T1 = true → conforms st T2 = true →
  subclass st T2 T1 = false →
  visible st T1 "tag_list" = None → visible st T2 "tag_list" = None →
  ∃ s1 s2,
    tags_decorate_process_model l T1 st = (s1, inr T1) ∧
    tags_decorate_process_model l T2 s1 = (s2, inr T2) ∧
    own s2 T1 "tag_list" = Some (AList l) ∧
    own s2 T2 "tag_list" = Some (AList l) ∧
    heap s2 = heap st.
Proof.
  intros Hc1 Hc2 Hsub Hv1 Hv2.
  pose proof (conforms_is_class _ _ Hc1) as Hcls1.
  pose proof (conforms_is_class _ _ Hc2) as Hcls2.
  pose proof (subclass_false_ne _ _ _ Hcls2 Hsub) as Hne.
  do 2 eexists.
  split; [by apply tags_decorate_first|].
  split; [|split; [|split]].
  - apply tags_decorate_first; [by rewrite conforms_write|].
    rewrite <- Hv2. apply (visible_frame st _ T1); [|done..].
    intros c Hc. by apply classes_write_ne.
  - unfold own. rewrite classes_write_ne by done.
    by apply (own_write_eq st T1 "tag_list").
  - apply own_write_eq. by apply is_class_write.
  - by rewrite !heap_write.
Qed.

Lemma implements_decorate_others proc protocol T st c :
  c ≠ T →
  classes (final (implements_decorate_process_model proc protocol T st)) !! c
  = classes st !! c.
Proof.
  intros Hne.
  destruct (implements_decorate_state proc protocol T st) as [->|[->| ->]];
    [done|..]; by rewrite ?classes_write_given_ne.
Qed.

(** X10.  Decorating a class changes nothing for the classes that do not
    derive from it: after a closure of [implements], [requires] or [tags]
    ran on [T], whatever the outcome, a class without [T] in its method
    resolution order, such as a parent or a sibling of [T], shows every
    attribute as it did before. *)
Theorem decoration_stays_below st T C name :
  is_Some (classes st !! C) → subclass st C T = false →
  (∀ proc protocol,
     visible (final (implements_decorate_process_model proc protocol T st))
       C name = visible st C name) ∧
  (∀ reqs,
     visible (final (requires_decorate_process_model reqs T st)) C name
     = visible st C name) ∧
  (∀ tag_list,
     visible (final (tags_decorate_process_model tag_list T st)) C name
     = visible st C name).
Proof.
  intros Hcls Hsub. split; [|split]; intros.
  - apply (visible_frame st _ T); [|done..].
    intros c Hc. by apply implements_decorate_others.
  - apply (visible_frame st _ T); [|done..].
    by destruct (requires_decorate_frame reqs T st) as [Hsame _].
  - apply (visible_frame st _ T); [|done..].
    by destruct (tags_decorate_frame tag_list T st) as [Hsame _].
Qed.

(** X11.  Attribute lookup on a class is late: a subclass [S] whose first
    parent is [T] and which has no own value of a field shows whatever [T]
    owns.  So when [T] is decorated after [S] was defined, [S] shows the
    class that [implements] bound on [T], and shows as its
    [required_resources] the very list object that [requires] wrote on
    [T]. *)
Theorem subclass_sees_decoration st T S oS rest :
  S ≠ T → classes st !! S = Some oS → c_ancestors oS = T :: rest →
  (∀ p protocol s,
     c_dict oS !! "implements_process" = None →
     implements_decorate_process_model (Some p) protocol T st = (s, inr T) →
     visible s S "implements_process" = Some (ACls p)) ∧
  (∀ reqs s,
     c_dict oS !! "required_resources" = None →
     requires_decorate_process_model reqs T st = (s, inr T) →
     ∃ l', own s T "required_resources" = Some (AList l') ∧
           visible s S "required_resources" = Some (AList l') ∧
           heap st !! l' = None).
Proof.
  intros Hne Ho Hanc. split.
  - intros p protocol s Hd Hrun.
    pose proof (implements_decorate_others (Some p) protocol T st S Hne)
      as Hsame. rewrite Hrun in Hsame. simpl in Hsame.
    apply implements_decorate_success in Hrun as [Hc ->].
    eapply visible_inherits; [by rewrite Hsame|done..|].
    rewrite own_write_given_ne by done. apply own_write_eq.
    by apply conforms_is_class.
  - intros reqs s Hd Hrun.
    destruct (requires_decorate_frame reqs T st) as [Hsame _].
    rewrite Hrun in Hsame. simpl in Hsame.
    pose proof (requires_decorate_fresh _ _ _ _ _ Hrun) as Hown.
    eexists. split; [exact Hown|]. split.
    + eapply visible_inherits; [by rewrite Hsame|done..].
    + apply lookup_ge_None. lia.
Qed.

(** ** Further properties of the construction of the binders *)

Lemma issubclass_cls_cases c base st :
  (is_Some (classes st !! c) ∧
   issubclass_cls c base st = (st, inr (subclass st c base))) ∨
  (classes st !! c = None ∧ issubclass_cls c base st = (st, inl TypeError)).
Proof.
  unfold issubclass_cls, subclass, mro.
  destruct (classes st !! c) as [o|]; simpl; [left|right]; eauto.
Qed.

(** The test [implements] makes on one of its arguments. *)
Lemma implements_check new base st :
  final (match new with
         | Some p =>
             ok <- issubclass_cls p base ;;
             if ok then ret tt else raise (AssertionError NoMessage)
         | None => ret tt
         end st) = st ∧
  ((∀ p, new = Some p → subclass st p base = true) →
   match new with
   | Some p =>
       ok <- issubclass_cls p base ;;
       if ok then ret tt else raise (AssertionError NoMessage)
   | None => ret tt
   end st = (st, inr tt)) ∧
  (∀ p, new = Some p → is_Some (classes st !! p) →
        subclass st p base = false →
        match new with
        | Some p =>
            ok <- issubclass_cls p base ;;
            if ok then ret tt else raise (AssertionError NoMessage)
        | None => ret tt
        end st = (st, inl (AssertionError NoMessage))).
Proof.
  destruct new as [p|]; [|by repeat split].
  destruct (issubclass_cls_cases p base st) as [[Hcls Hrun]|[Hno Hrun]].
  - split; [|split].
    + erewrite bind_ok by done. by destruct (subclass st p base).
    + intros Hsub. erewrite bind_ok by done. by rewrite (Hsub p).
    + intros ? [= <-] _ Hsub. erewrite bind_ok by done. by rewrite Hsub.
  - split; [|split].
    + by erewrite bind_raise by done.
    + intros Hsub. specialize (Hsub p eq_refl). unfold subclass, mro in Hsub.
      by rewrite Hno in Hsub.
    + intros ? [= <-] [o Ho]. congruence.
Qed.

(** X12.  [implements(proc, protocol)] checks what it is given and nothing
    else: it never changes the state; it returns when every argument that
    was given is a subclass of its base class; and when an argument is a
    class that is not, [proc] of [AbstractProcess] or [protocol] of
    [AbstractSyncProtocol], it raises an assertion error without a
    message. *)
Theorem implements_validates st proc protocol :
  final (implements proc protocol st) = st ∧
  ((∀ p, proc = Some p → subclass st p AbstractProcess = true) →
   (∀ q, protocol = Some q → subclass st q AbstractSyncProtocol = true) →
   outcome (implements proc protocol st) = inr (proc, protocol)) ∧
  (∀ p, proc = Some p → is_Some (classes st !! p) →
        subclass st p AbstractProcess = false →
        outcome (implements proc protocol st)
        = inl (AssertionError NoMessage)) ∧
  (∀ q, protocol = Some q → is_Some (classes st !! q) →
        subclass st q AbstractSyncProtocol = false →
        (∀ p, proc = Some p → subclass st p AbstractProcess = true) →
        outcome (implements proc protocol st)
        = inl (AssertionError NoMessage)).
Proof.
  destruct (implements_check proc AbstractProcess st) as (Hs1 & Hok1 & Hbad1).
  destruct (implements_check protocol AbstractSyncProtocol st)
    as (Hs2 & Hok2 & Hbad2).
  unfold implements. split; [|split; [|split]].
  - unfold bind at 1.
    match type of Hs1 with
    | final ?m = st => destruct m as [s1 [e|[]]]
    end; simpl in Hs1; subst s1; [done|].
    unfold bind at 1.
    match type of Hs2 with
    | final ?m = st => destruct m as [s2 [e|[]]]
    end; simpl in Hs2; by subst s2.
  - intros Hp Hq. erewrite bind_ok by by apply Hok1.
    by erewrite bind_ok by by apply Hok2.
  - intros p Hp Hcls Hsub. by erewrite bind_raise by by eapply Hbad1.
  - intros q Hq Hcls Hsub Hp. erewrite bind_ok by by apply Hok1.
    by erewrite bind_raise by by eapply Hbad2.
Qed.

Lemma max_list_zero (l : list nat) :
  max_list l = 0 ↔ Forall (λ n, n = 0) l.
Proof.
  induction l as [|n l IH]; simpl; [by split|].
  rewrite Forall_cons, <- IH. lia.
Qed.

Lemma list_depth_zero v : list_depth v = 0 ↔ no_inner_items v = true.
Proof. destruct v as [| | | |[|x l]|]; simpl; split; done. Qed.

(** The test of [tags] accepts the flat items and no others. *)
Lemma tags_accepts_flat arg : tags_accepts arg = flat_item arg.
Proof.
  unfold tags_accepts. destruct arg as [| | | |[|x l]|]; try done.
  unfold isinstance_str, isinstance_list, flat_item.
  rewrite orb_false_l, andb_true_l.
  change (list_depth (VList (x :: l)))
    with (S (max_list (list_depth <$> x :: l))).
  destruct (forallb no_inner_items (x :: l)) eqn:Hall.
  - apply bool_decide_eq_true_2. f_equal. apply max_list_zero.
    apply Forall_fmap, Forall_forall. intros v Hv. simpl.
    apply list_depth_zero. by eapply forallb_true_elem.
  - apply bool_decide_eq_false_2. intros [= Hmax].
    change (max_list (list_depth <$> x :: l) = 0) in Hmax.
    apply max_list_zero, Forall_fmap in Hmax.
    apply forallb_false_elem in Hall as (v & Hv & Hbad).
    rewrite Forall_forall in Hmax. specialize (Hmax v Hv). simpl in Hmax.
    apply list_depth_zero in Hmax. congruence.
Qed.

Lemma forallb_ext_eq {A} (f g : A → bool) (l : list A) :
  (∀ x, f x = g x) → forallb f l = forallb g l.
Proof. intros H. induction l as [|x l IH]; simpl; [done|]. by rewrite H, IH. Qed.

Lemma tags_returns st args s tl :
  tags args st = (s, inr tl) →
  forallb tags_accepts args = true ∧
  heap s !! tl = Some (flatten_tags args).
Proof.
  intros Hrun.
  destruct (tags_run st args) as [[Hall Heq]|[_ (xs & Heq)]];
    rewrite Heq in Hrun; [|done].
  injection Hrun as <- <-. split; [done|]. simpl.
  rewrite lookup_app_r by lia.
  by replace (S (length (heap st)) - length (heap st)) with 1 by lia.
Qed.

Lemma tags_succeeds st args :
  forallb tags_accepts args = true →
  ∃ s tl, tags args st = (s, inr tl) ∧
          heap s !! tl = Some (flatten_tags args).
Proof.
  intros Hall.
  destruct (tags_run st args) as [[_ Heq]|[Hbad _]]; [|congruence].
  do 2 eexists. split; [exact Heq|]. by eapply tags_returns.
Qed.

(** X13.  [tags] accepts its arguments exactly when every item is a string
    or a list that is not empty and holds no list with something in it; it
    then captures the items flattened in their order.  On any other
    arguments, among them [None], a number, a class, a tuple, the empty list
    and a list holding a list that is not empty, it raises its assertion
    error. *)
Theorem tags_accepts_exactly st args :
  (forallb flat_item args = true →
   ∃ s tl, tags args st = (s, inr tl) ∧
           heap s !! tl = Some (flatten_tags args)) ∧
  (forallb flat_item args = false →
   ∃ s, tags args st = (s, inl (AssertionError MsgTagsInput))).
Proof.
  rewrite <- (forallb_ext_eq tags_accepts flat_item args tags_accepts_flat).
  split; intros Hall.
  - by apply tags_succeeds.
  - destruct (tags_run st args) as [[Hok _]|[_ (xs & ->)]]; [congruence|].
    by eexists.
Qed.

Lemma flatten_strs args :
  forallb str_or_strs args = true →
  Forall (λ v, isinstance_str v = true) (flatten_tags args).
Proof.
  unfold flatten_tags. induction args as [|arg args IH]; simpl; [done|].
  intros [Harg Hargs]%andb_prop. apply Forall_app. split; [|by apply IH].
  destruct arg as [| |s| |l|]; try done.
  - by repeat constructor.
  - simpl in *. apply Forall_forall. intros v Hv.
    by eapply forallb_true_elem.
Qed.

(** X14.  On arguments of the documented kind, strings and lists of
    strings that are not empty, [tags] raises nothing, and what it captures
    is a list of strings: the string items and the strings of the list
    items, in the order of the arguments. *)
Theorem tags_of_strings st args :
  forallb str_or_strs args = true → VList [] ∉ args →
  ∃ s tl,
    tags args st = (s, inr tl) ∧
    heap s !! tl = Some (flatten_tags args) ∧
    Forall (λ v, isinstance_str v = true) (flatten_tags args).
Proof.
  intros Hstr Hne.
  assert (forallb tags_accepts args = true) as Hall.
  { apply forallb_forall. intros arg Harg%list_elem_of_In.
    apply tags_accepts_strs; [by eapply forallb_true_elem|].
    by intros ->. }
  destruct (tags_succeeds st args Hall) as (s & tl & Hrun & Hheap).
  exists s, tl. split; [done|]. split; [done|]. by apply flatten_strs.
Qed.

(** X15.  The loop of [tags] treats its items one by one: [tags( *a, *b)]
    returns exactly when [tags( *a)] and [tags( *b)] both do, and what it
    captures is what the first captures followed by what the second
    captures. *)
Theorem tags_concatenates st a b :
  (∀ sa ta sb tb,
     tags a st = (sa, inr ta) → tags b st = (sb, inr tb) →
     ∃ s t xa xb,
       tags (a ++ b) st = (s, inr t) ∧
       heap sa !! ta = Some xa ∧ heap sb !! tb = Some xb ∧
       heap s !! t = Some (xa ++ xb)) ∧
  (∀ s t, tags (a ++ b) st = (s, inr t) →
     (∃ sa ta, tags a st = (sa, inr ta)) ∧
     (∃ sb tb, tags b st = (sb, inr tb))).
Proof.
  split.
  - intros sa ta sb tb [Ha Hxa]%tags_returns [Hb Hxb]%tags_returns.
    destruct (tags_succeeds st (a ++ b)) as (s & t & Hrun & Hheap).
    { rewrite forallb_app. by rewrite Ha, Hb. }
    exists s, t, (flatten_tags a), (flatten_tags b).
    split; [done|]. split; [done|]. split; [done|].
    rewrite Hheap. unfold flatten_tags. by rewrite bind_app.
  - intros s t [Hall _]%tags_returns.
    rewrite forallb_app in Hall. apply andb_prop in Hall as [Ha Hb].
    split.
    + destruct (tags_succeeds st a Ha) as (sa & ta & Hrun & _). eauto.
    + destruct (tags_succeeds st b Hb) as (sb & tb & Hrun & _). eauto.
Qed.

Lemma for_each_first_error {A} (body : A → M unit) (pre : list A) x post
    st e :
  (∀ y, y ∈ pre → body y st = (st, inr tt)) →
  body x st = (st, inl e) →
  for_each body (pre ++ x :: post) st = (st, inl e).
Proof.
  intros Hpre Hx. induction pre as [|y pre IH]; simpl.
  - by erewrite bind_raise.
  - erewrite bind_ok by (apply Hpre; by left).
    apply IH. intros z Hz. apply Hpre. by right.
Qed.

Lemma requires_stops st pre bad post e :
  forallb (valid_requirement st) pre = true →
  requires_check bad (alloc st (pre ++ bad :: post))
  = (alloc st (pre ++ bad :: post), inl e) →
  outcome (requires (pre ++ bad :: post) st) = inl e.
Proof.
  intros Hpre Hbad. unfold requires.
  erewrite bind_ok by apply new_list_run.
  erewrite bind_ok by apply read_list_run.
  rewrite list_at_alloc_new.
  erewrite bind_raise; [done|].
  apply for_each_first_error; [|done]. intros v Hv.
  destruct (requires_check_cases (alloc st (pre ++ bad :: post)) v)
    as [[_ Hrun]|[Hno _]]; [done|].
  change (valid_requirement st v = false) in Hno.
  by rewrite (forallb_true_elem _ _ _ Hpre Hv) in Hno.
Qed.

Lemma resource_list_stops st ok x rest e :
  forallb (is_resource st) ok = true →
  (r <- issubclass x AbstractResource ;;
   if r then ret tt else raise (AssertionError MsgRequiresList)) st
  = (st, inl e) →
  requires_check (VList (ok ++ x :: rest)) st = (st, inl e).
Proof.
  intros Hok Hx. unfold requires_check. simpl.
  erewrite bind_ok by done.
  apply (for_each_first_error
           (λ r, b <- issubclass r AbstractResource ;;
                 if b then ret tt else raise (AssertionError MsgRequiresList)));
    [|done].
  intros v Hv.
  destruct (resource_test st v MsgRequiresList) as [[_ Hrun]|[Hno _]];
    [done|].
  by rewrite (forallb_true_elem _ _ _ Hok Hv) in Hno.
Qed.

(** X16.  [requires] stops at the first item it does not accept, and the
    item decides the error.  Behind items that pass: a value that is neither
    a class nor a list, such as a string or a tuple, even a tuple of
    resource classes, raises [TypeError]; a class that is not a resource
    raises the assertion error on items; a list raises, at its first element
    that is not a resource class, the assertion error on lists when that
    element is a class and [TypeError] when it is not. *)
Theorem requires_first_offender st pre bad post :
  forallb (valid_requirement st) pre = true →
  (scalar_or_tuple bad = true →
   outcome (requires (pre ++ bad :: post) st) = inl TypeError) ∧
  (∀ c, bad = VCls c → is_type st bad = true → is_resource st bad = false →
        outcome (requires (pre ++ bad :: post) st)
        = inl (AssertionError MsgRequiresItem)) ∧
  (∀ ok x rest,
     bad = VList (ok ++ x :: rest) → forallb (is_resource st) ok = true →
     is_type st x = true → is_resource st x = false →
     outcome (requires (pre ++ bad :: post) st)
     = inl (AssertionError MsgRequiresList)) ∧
  (∀ ok x rest,
     bad = VList (ok ++ x :: rest) → forallb (is_resource st) ok = true →
     is_type st x = false →
     outcome (requires (pre ++ bad :: post) st) = inl TypeError).
Proof.
  intros Hpre. split; [|split; [|split]].
  - intros Hbad. apply requires_stops; [done|].
    unfold requires_check. by destruct bad.
  - intros c -> Hty Hres. apply requires_stops; [done|].
    unfold requires_check. simpl.
    erewrite bind_raise; [done|].
    by erewrite bind_ok by by apply (issubclass_other_type _ (VCls c)).
  - intros ok x rest -> Hok Hty Hres. apply requires_stops; [done|].
    apply resource_list_stops; [done|].
    by erewrite bind_ok by by apply issubclass_other_type.
  - intros ok x rest -> Hok Hty. apply requires_stops; [done|].
    apply resource_list_stops; [done|].
    by erewrite bind_raise by by apply issubclass_no_type.
Qed.

(** ** The closure of [implements] and the other two *)

Lemma write_write_ne st c name a name' a' :
  name ≠ name' →
  write (write st c name a) c name' a' = write (write st c name' a') c name a.
Proof.
  intros Hne. destruct (classes st !! c) as [o|] eqn:Ho.
  - rewrite (write_unfold st c name a o Ho), (write_unfold st c name' a' o Ho).
    unfold write, setattr. simpl. rewrite !lookup_insert_eq. simpl.
    f_equal. rewrite !insert_insert_eq. f_equal. unfold set_own. simpl.
    f_equal. by apply insert_insert_ne.
  - by rewrite !write_not_class by (by rewrite ?write_not_class).
Qed.

Lemma write_given_write st T name a name' new :
  name ≠ name' →
  write_given (write st T name a) T name' new
  = write (write_given st T name' new) T name a.
Proof. intros Hne. destruct new; [by apply write_write_ne|done]. Qed.

Lemma alloc_write st c name a xs :
  alloc (write st c name a) xs = write (alloc st xs) c name a.
Proof.
  destruct (classes st !! c) as [o|] eqn:Ho.
  - rewrite (write_unfold st c name a o Ho).
    by rewrite (write_unfold (alloc st xs) c name a o Ho).
  - rewrite (write_not_class st c name a Ho).
    by rewrite (write_not_class (alloc st xs) c name a Ho).
Qed.

Lemma alloc_write_given st T name new xs :
  alloc (write_given st T name new) xs = write_given (alloc st xs) T name new.
Proof. destruct new; [apply alloc_write|done]. Qed.

Lemma truth_value_class_or_none st st' v :
  class_or_none v → truth_value st' v = truth_value st v.
Proof. by intros [->|[c ->]]. Qed.

Lemma truth_value_write_given st T name new v :
  truth_value (write_given st T name new) v = truth_value st v.
Proof. destruct new; [apply truth_value_write|done]. Qed.

(** A field that was bound in one state is bound in every state that shows
    the target the same value with the same truth. *)
Lemma bind_field_transfer name new msg T st s1 s2 cur :
  bind_field name new msg T st = (s1, inr tt) →
  visible st T name = Some cur → visible s2 T name = Some cur →
  truth_value s2 cur = truth_value st cur →
  bind_field name new msg T s2 = (write_given s2 T name new, inr tt).
Proof.
  intros Hrun Hv Hv2 Ht.
  pose proof (bind_field_cases name msg T new st) as Hcase.
  rewrite Hrun in Hcase.
  inversion Hcase as [|cur' Hn Hv'|cur' p o Hn Hv' Ho Hc|cur' p Hn Hv' Hc];
    subst; simpl.
  - by eapply bind_field_not_given.
  - eapply bind_field_write; [done..|].
    rewrite Ht. rewrite Hv in Hv'. by injection Hv' as ->.
Qed.

Lemma implements_decorate_transfer proc protocol T st sI s2 vp vq :
  implements_decorate_process_model proc protocol T st = (sI, inr T) →
  conforms s2 T = true →
  visible st T "implements_process" = Some vp →
  visible s2 T "implements_process" = Some vp →
  truth_value s2 vp = truth_value st vp →
  visible st T "implements_protocol" = Some vq →
  visible s2 T "implements_protocol" = Some vq →
  truth_value s2 vq = truth_value st vq →
  implements_decorate_process_model proc protocol T s2
  = (write_given (write_given s2 T "implements_process" proc) T
       "implements_protocol" protocol, inr T).
Proof.
  intros Hrun Hc2 Hvp Hvp2 Htp Hvq Hvq2 Htq.
  pose proof (implements_decorate_success _ _ _ _ _ _ Hrun) as [Hc _].
  destruct (bind_field "implements_process" proc MsgAlreadyProcess T st)
    as [s1 [e1|[]]] eqn:H1.
  { by rewrite (implements_decorate_stops_1 _ _ _ _ _ _ Hc H1) in Hrun. }
  destruct (bind_field "implements_protocol" protocol MsgAlreadyProtocol T s1)
    as [s2' [e2|[]]] eqn:H2.
  { by rewrite (implements_decorate_stops_2 _ _ _ _ _ _ _ Hc H1 H2) in Hrun. }
  apply field_ok in H1 as Hs1.
  fold (write_given st T "implements_process" proc) in Hs1. subst s1.
  eapply implements_decorate_returns; [done|..].
  - by eapply bind_field_transfer.
  - eapply bind_field_transfer; [exact H2|..].
    + by rewrite visible_write_given_ne.
    + by rewrite visible_write_given_ne.
    + by rewrite !truth_value_write_given.
Qed.

Lemma requires_decorate_general reqs T st l0 :
  conforms st T = true →
  visible st T "required_resources" = Some (AList l0) →
  requires_decorate_process_model reqs T st
  = (write (alloc (alloc st (list_at st l0))
              (list_at st l0 ++ list_at (alloc st (list_at st l0)) reqs))
       T "required_resources" (AList (S (length (heap st)))), inr T).
Proof.
  intros Hc Hv. unfold requires_decorate_process_model.
  erewrite bind_ok by by apply issubclass_conforms.
  erewrite bind_ok by done.
  rewrite <- !bind_assoc. unfold bind at 1. rewrite !bind_assoc.
  destruct (extend_cases "required_resources" reqs T st)
    as [(l0' & Hv' & ->)|[Hno _]]; [|by destruct (Hno l0)].
  rewrite Hv in Hv'. by injection Hv' as <-.
Qed.

Lemma requires_decorate_success reqs T st s r :
  requires_decorate_process_model reqs T st = (s, inr r) →
  conforms st T = true ∧
  ∃ l0, visible st T "required_resources" = Some (AList l0).
Proof.
  intros Hrun. destruct (conforms st T) eqn:Hc.
  - split; [done|].
    destruct (visible st T "required_resources") as [[| |l0]|] eqn:Hv;
      [..|by eauto|];
      revert Hrun; unfold requires_decorate_process_model;
      (erewrite bind_ok by by apply issubclass_conforms);
      (erewrite bind_ok by done);
      rewrite <- !bind_assoc; unfold bind at 1; rewrite !bind_assoc;
      (destruct (extend_cases "required_resources" reqs T st)
        as [(l0' & Hv' & _)|[_ ->]]; [congruence|done]).
  - revert Hrun. unfold requires_decorate_process_model.
    target_test T st e H0.
    + by erewrite bind_raise by done.
    + revert H0. unfold issubclass_cls, conforms in *.
      destruct (mro st T); [|done]. intros [= Hb]. congruence.
    + erewrite bind_ok by done. by erewrite bind_raise by done.
Qed.

(** X17.  The closure of [implements] and the closure of [requires] do not
    get in each other's way.  On a target whose two implementation fields
    show [None] or a class: when each of the two closures returns on a
    state, they return in either order, and both orders end in the same
    state. *)
Theorem implements_requires_commute st T proc protocol reqs vp vq sI sR :
  visible st T "implements_process" = Some vp → class_or_none vp →
  visible st T "implements_protocol" = Some vq → class_or_none vq →
  implements_decorate_process_model proc protocol T st = (sI, inr T) →
  requires_decorate_process_model reqs T st = (sR, inr T) →
  ∃ s, implements_decorate_process_model proc protocol T sR = (s, inr T) ∧
       requires_decorate_process_model reqs T sI = (s, inr T).
Proof.
  intros Hvp Hkp Hvq Hkq HI HR.
  destruct (requires_decorate_success _ _ _ _ _ HR) as (Hc & l0 & Hv).
  rewrite (requires_decorate_general reqs T st l0 Hc Hv) in HR.
  injection HR as <-.
  pose proof (implements_decorate_success _ _ _ _ _ _ HI) as [_ ->].
  eexists. split.
  - eapply implements_decorate_transfer; [exact HI|..].
    + by rewrite conforms_write.
    + done.
    + by rewrite visible_write_ne.
    + by apply truth_value_class_or_none.
    + done.
    + by rewrite visible_write_ne.
    + by apply truth_value_class_or_none.
  - rewrite (requires_decorate_general reqs T _ l0).
    + f_equal. unfold list_at. rewrite !heap_alloc, !heap_write_given.
      rewrite !write_given_write by done.
      by rewrite !alloc_write_given.
    + by rewrite !conforms_write_given.
    + by rewrite !visible_write_given_ne.
Qed.

Lemma tags_decorate_general tag_list T st l0 :
  conforms st T = true →
  visible st T "tag_list" = Some (AList l0) →
  tags_decorate_process_model tag_list T st
  = (write (alloc (alloc st (list_at st l0))
              (list_at st l0 ++ list_at (alloc st (list_at st l0)) tag_list))
       T "tag_list" (AList (S (length (heap st)))), inr T).
Proof.
  intros Hc Hv. unfold tags_decorate_process_model.
  erewrite bind_ok by by apply issubclass_conforms.
  erewrite bind_ok by done.
  unfold hasattr at 1. unfold bind at 1. rewrite Hv.
  rewrite bool_decide_eq_true_2 by eauto. unfold bind at 1.
  destruct (extend_cases "tag_list" tag_list T st)
    as [(l0' & Hv' & ->)|[Hno _]]; [|by destruct (Hno l0)].
  rewrite Hv in Hv'. by injection Hv' as <-.
Qed.

Lemma tags_decorate_success tag_list T st s r :
  tags_decorate_process_model tag_list T st = (s, inr r) →
  conforms st T = true ∧
  (visible st T "tag_list" = None ∨
   ∃ l0, visible st T "tag_list" = Some (AList l0)).
Proof.
  intros Hrun. destruct (conforms st T) eqn:Hc.
  - split; [done|].
    destruct (visible st T "tag_list") as [[| |l0]|] eqn:Hv;
      [..|by eauto|by eauto];
      revert Hrun; unfold tags_decorate_process_model;
      (erewrite bind_ok by by apply issubclass_conforms);
      (erewrite bind_ok by done);
      unfold hasattr at 1; unfold bind at 1; rewrite Hv;
      (rewrite bool_decide_eq_true_2 by eauto); unfold bind at 1;
      (destruct (extend_cases "tag_list" tag_list T st)
        as [(l0' & Hv' & _)|[_ ->]]; [congruence|done]).
  - revert Hrun. unfold tags_decorate_process_model.
    target_test T st e H0.
    + by erewrite bind_raise by done.
    + revert H0. unfold issubclass_cls, conforms in *.
      destruct (mro st T); [|done]. intros [= Hb]. congruence.
    + erewrite bind_ok by done. by erewrite bind_raise by done.
Qed.

(** X18.  The closure of [implements] and the closure of [tags] do not get
    in each other's way either.  On a target whose two implementation
    fields show [None] or a class: when each of the two closures returns on
    a state, they return in either order, and both orders end in the same
    state. *)
Theorem implements_tags_commute st T proc protocol tag_list vp vq sI sT :
  visible st T "implements_process" = Some vp → class_or_none vp →
  visible st T "implements_protocol" = Some vq → class_or_none vq →
  implements_decorate_process_model proc protocol T st = (sI, inr T) →
  tags_decorate_process_model tag_list T st = (sT, inr T) →
  ∃ s, implements_decorate_process_model proc protocol T sT = (s, inr T) ∧
       tags_decorate_process_model tag_list T sI = (s, inr T).
Proof.
  intros Hvp Hkp Hvq Hkq HI HT.
  destruct (tags_decorate_success _ _ _ _ _ HT) as (Hc & [Hv|[l0 Hv]]).
  - rewrite (tags_decorate_first tag_list T st Hc Hv) in HT.
    injection HT as <-.
    pose proof (implements_decorate_success _ _ _ _ _ _ HI) as [_ ->].
    eexists. split.
    + eapply implements_decorate_transfer; [exact HI|..].
      * by rewrite conforms_write.
      * done.
      * by rewrite visible_write_ne.
      * by apply truth_value_class_or_none.
      * done.
      * by rewrite visible_write_ne.
      * by apply truth_value_class_or_none.
    + rewrite tags_decorate_first.
      * f_equal. by rewrite !write_given_write.
      * by rewrite !conforms_write_given.
      * by rewrite !visible_write_given_ne.
  - rewrite (tags_decorate_general tag_list T st l0 Hc Hv) in HT.
    injection HT as <-.
    pose proof (implements_decorate_success _ _ _ _ _ _ HI) as [_ ->].
    eexists. split.
    + eapply implements_decorate_transfer; [exact HI|..].
      * by rewrite conforms_write.
      * done.
      * by rewrite visible_write_ne.
      * by apply truth_value_class_or_none.
      * done.
      * by rewrite visible_write_ne.
      * by apply truth_value_class_or_none.
    + rewrite (tags_decorate_general tag_list T _ l0).
      * f_equal. unfold list_at. rewrite !heap_alloc, !heap_write_given.
        rewrite !write_given_write by done.
        by rewrite !alloc_write_given.
      * by rewrite !conforms_write_given.
      * by rewrite !visible_write_given_ne.
Qed.

(** X19.  Whatever the outcome, the closure of [requires] writes nothing
    but the target's own [required_resources], and the closure of [tags]
    nothing but the target's own [tag_list]: every other own attribute of
    the target, every other class and every list object there was, the
    captured one among them, is as it was. *)
Theorem extending_closures_frame l T st :
  ((∀ c, c ≠ T →
      classes (final (requires_decorate_process_model l T st)) !! c
      = classes st !! c) ∧
   (∀ name, name ≠ "required_resources" →
      own (final (requires_decorate_process_model l T st)) T name
      = own st T name) ∧
   (∀ l' xs, heap st !! l' = Some xs →
      heap (final (requires_decorate_process_model l T st)) !! l' = Some xs))
  ∧
  ((∀ c, c ≠ T →
      classes (final (tags_decorate_process_model l T st)) !! c
      = classes st !! c) ∧
   (∀ name, name ≠ "tag_list" →
      own (final (tags_decorate_process_model l T st)) T name
      = own st T name) ∧
   (∀ l' xs, heap st !! l' = Some xs →
      heap (final (tags_decorate_process_model l T st)) !! l' = Some xs)).
Proof.
  split.
  - destruct (requires_decorate_frame l T st) as (Hc & Ho & Hh).
    repeat split; [done..|]. intros l' xs Hl. by eapply prefix_lookup_Some.
  - destruct (tags_decorate_frame l T st) as (Hc & Ho & Hh).
    repeat split; [done..|]. intros l' xs Hl. by eapply prefix_lookup_Some.
Qed.

(** ** The decorators as they are used *)

(** X20.  [@requires( *args)] on a class, construction and application in
    one go: when every item is a resource class or a list of resource
    classes and the class conforms and shows the list [R0], the decorator
    returns the class and leaves on its own record a new list that holds
    [R0] followed by the arguments as they were given, list items kept as
    single entries; the list objects there were are unchanged. *)
Theorem requires_decorator st args T l0 R0 :
  forallb (valid_requirement st) args = true →
  conforms st T = true →
  visible st T "required_resources" = Some (AList l0) →
  heap st !! l0 = Some R0 →
  ∃ s l',
    (reqs <- requires args ;; requires_decorate_process_model reqs T) st
    = (s, inr T) ∧
    own s T "required_resources" = Some (AList l') ∧
    heap s !! l' = Some (R0 ++ args) ∧
    heap st !! l' = None ∧
    ∀ l xs, heap st !! l = Some xs → heap s !! l = Some xs.
Proof.
  intros Hall Hc Hv H0.
  destruct (requires_run st args) as [[_ Hrun]|[Hbad _]]; [|congruence].
  do 2 eexists. erewrite bind_ok by exact Hrun.
  split; [|split; [|split; [|split]]].
  - eapply requires_decorate_extends; [done|done|..].
    + rewrite heap_alloc. by apply lookup_app_l_Some.
    + apply heap_alloc_new.
  - apply extended_own. by apply conforms_is_class.
  - apply extended_new.
  - apply lookup_ge_None. rewrite length_heap_alloc. lia.
  - intros l xs Hl. apply extended_old. rewrite heap_alloc.
    by apply lookup_app_l_Some.
Qed.

(** X21.  [@tags( *args)] on a class, construction and application in one
    go: when every item is a string or a list that [tags] accepts and the
    class conforms, the decorator returns the class, whose own [tag_list]
    then holds the tags of the arguments, flattened in their order, behind
    the tags the class showed before, if it showed any. *)
Theorem tags_decorator st args T :
  forallb flat_item args = true →
  conforms st T = true →
  (visible st T "tag_list" = None →
   ∃ s l',
     (tag_list <- tags args ;; tags_decorate_process_model tag_list T) st
     = (s, inr T) ∧
     own s T "tag_list" = Some (AList l') ∧
     heap s !! l' = Some (flatten_tags args)) ∧
  (∀ l0 R0,
     visible st T "tag_list" = Some (AList l0) → heap st !! l0 = Some R0 →
     ∃ s l',
       (tag_list <- tags args ;; tags_decorate_process_model tag_list T) st
       = (s, inr T) ∧
       own s T "tag_list" = Some (AList l') ∧
       heap s !! l' = Some (R0 ++ flatten_tags args)).
Proof.
  intros Hall Hc.
  rewrite <- (forallb_ext_eq tags_accepts flat_item args tags_accepts_flat)
    in Hall.
  destruct (tags_run st args) as [[_ Hrun]|[Hbad _]]; [|congruence].
  pose proof (conforms_is_class _ _ Hc) as Hcls.
  assert (∀ xs, (heap st ++ [args; xs]) !! S (length (heap st)) = Some xs)
    as Hnew.
  { intros xs. rewrite lookup_app_r by lia.
    by replace (S (length (heap st)) - length (heap st)) with 1 by lia. }
  split.
  - intros Hv. do 2 eexists. erewrite bind_ok by exact Hrun.
    split; [by apply tags_decorate_first|].
    split; [by apply own_write_eq|]. rewrite heap_write. apply Hnew.
  - intros l0 R0 Hv H0. do 2 eexists. erewrite bind_ok by exact Hrun.
    split; [|split].
    + eapply tags_decorate_extends_to; [done|done|..].
      * simpl. by apply lookup_app_l_Some.
      * apply Hnew.
    + by apply extended_own.
    + apply extended_new.
Qed.

End Decorator.

(** ** The decorators run on the small program *)

Lemma demo_declares : base_declares APM_ demo.
Proof.
  intros name Hin.
  repeat (apply elem_of_cons in Hin as [->|Hin]); [..|by apply elem_of_nil in Hin];
    vm_compute; eauto.
Qed.

(** C1 does not hold as stated: [SubModel] inherits the protocol [Proto1];
    [@implements(proc=P2, protocol=Proto2)] on it raises the conflict error
    of the protocol field, and [SubModel], which had no [implements_process]
    of its own, has [P2] written when the error is raised. *)
Lemma implements_not_all_or_nothing :
  conforms APM_ demo_protocol SubModel = true ∧
  own demo_protocol SubModel "implements_process" = None ∧
  ∃ e, outcome (implements_decorate_process_model APM_ (Some P2)
                  (Some Proto2) SubModel demo_protocol) = inl e ∧
       ConflictError e ∧
       own (final (implements_decorate_process_model APM_ (Some P2)
                     (Some Proto2) SubModel demo_protocol))
         SubModel "implements_process" = Some (ACls P2).
Proof.
  split; [by vm_compute|]. split; [by vm_compute|].
  exists (AssertionError (MsgAlreadyProtocol "SubModel")).
  split; [by vm_compute|]. split; [|by vm_compute].
  exists "SubModel". by right.
Qed.

Lemma implements_conflict_writes_witness :
  own (final (implements_decorate_process_model APM_ (Some P2) (Some Proto2)
                SubModel demo_protocol)) SubModel "implements_protocol"
  = own demo_protocol SubModel "implements_protocol" ∧
  own (final (implements_decorate_process_model APM_ (Some P2) (Some Proto2)
                SubModel demo_protocol)) SubModel "implements_process"
  = Some (ACls P2) ∧
  ∀ c, c ≠ SubModel →
       classes (final (implements_decorate_process_model APM_ (Some P2)
                         (Some Proto2) SubModel demo_protocol)) !! c
       = classes demo_protocol !! c.
Proof.
  refine (proj2 (implements_conflict_writes APM_ demo_protocol SubModel
                   (Some P2) (Some Proto2) _
                   (AssertionError (MsgAlreadyProtocol "SubModel")) _)
            "SubModel" eq_refl).
  vm_compute. reflexivity.
Defined.

Lemma implements_conflict_detection_witness :
  (∃ e, implements_decorate_process_model APM_ (Some P2) (Some Proto1)
          SubModel demo_process = (demo_process, inl e) ∧ ConflictError e) ∧
  outcome (implements_decorate_process_model APM_ (Some P1) (Some Proto1)
             SubModel demo_process) = inr SubModel.
Proof.
  pose proof (implements_conflict_detection APM_ demo_process SubModel
                (ACls P1) ANone ltac:(by vm_compute) ltac:(by vm_compute)
                ltac:(by vm_compute)) as (Hdiff & Hsame & _).
  split.
  - apply (Hdiff P1 P2 (Some Proto1) eq_refl). discriminate.
  - apply (Hsame P1 (Some Proto1) eq_refl). by left.
Defined.

Lemma binders_concatenate_witness :
  (∃ st' l',
     requires_decorate_process_model APM_ 1 Model demo_binders
     = (st', inr Model) ∧
     own st' Model "required_resources" = Some (AList l') ∧
     heap st' !! l' = Some ([] ++ [VCls CPU])) ∧
  (∃ st' l',
     tags_decorate_process_model APM_ 3 SubModel demo_tagged
     = (st', inr SubModel) ∧
     own st' SubModel "tag_list" = Some (AList l') ∧
     heap st' !! l' = Some ([VStr "cpu"] ++ [VStr "gpu"])).
Proof.
  split.
  - pose proof (binders_concatenate APM_ AR_ demo_binders Model
                  ltac:(by vm_compute)) as (Hreq & _).
    apply (Hreq 1 0 [] [VCls CPU]); by vm_compute.
  - pose proof (binders_concatenate APM_ AR_ demo_tagged SubModel
                  ltac:(by vm_compute)) as (_ & Htags & _).
    apply (Htags 3 2 [VStr "cpu"] [VStr "gpu"]); by vm_compute.
Defined.

Lemma ancestors_untouched_witness :
  own (final (tags_decorate_process_model APM_ 3 SubModel demo_tagged))
    Model "tag_list" = Some (AList 2) ∧
  heap (final (tags_decorate_process_model APM_ 3 SubModel demo_tagged)) !! 2
  = Some [VStr "cpu"] ∧
  ∃ l', own (final (tags_decorate_process_model APM_ 3 SubModel demo_tagged))
          SubModel "tag_list" = Some (AList l') ∧
        heap demo_tagged !! l' = None.
Proof.
  pose proof (ancestors_untouched APM_ demo_tagged SubModel Model "tag_list"
                2 [VStr "cpu"] ltac:(discriminate) ltac:(by vm_compute)
                ltac:(by vm_compute)) as (_ & Htags).
  destruct (Htags 3) as (_ & Hown & Hheap & Hfresh).
  split; [exact Hown|]. split; [exact Hheap|].
  apply Hfresh; by vm_compute.
Defined.

(** C5 does not hold as stated.  [requires([])] raises nothing, and the
    requirement list it captures holds the empty list.  A tuple of resource
    classes, a sequence that is not empty, is not accepted, and neither it
    nor a string item is answered with an assertion error: both raise
    [TypeError]. *)
Lemma requires_not_as_stated :
  (outcome (requires AR_ [VList []] demo) = inr 1 ∧
   heap (final (requires AR_ [VList []] demo)) !! 1 = Some [VList []]) ∧
  (is_resource AR_ demo (VCls CPU) = true ∧
   outcome (requires AR_ [VTuple [VCls CPU]] demo) = inl TypeError) ∧
  (outcome (requires AR_ [VStr "cpu"] demo) = inl TypeError ∧
   ¬ InvalidArgument TypeError).
Proof.
  split; [split; by vm_compute|]. split; [split; by vm_compute|].
  split; [by vm_compute|]. by intros [?|[?|[?|?]]].
Qed.

Lemma requires_accepts_witness :
  requires AR_ [VCls CPU; VList [VCls CPU; VCls CPU]; VList []] demo
  = (alloc demo [VCls CPU; VList [VCls CPU; VCls CPU]; VList []], inr 1) ∧
  ∃ e, requires AR_ [VCls CPU; VList [VCls CPU; VCls P1]] demo
       = (alloc demo [VCls CPU; VList [VCls CPU; VCls P1]], inl e) ∧
       InvalidArgument e.
Proof.
  split.
  - apply (proj1 (proj2 (requires_accepts AR_ demo
                           [VCls CPU; VList [VCls CPU; VCls CPU]; VList []]))).
    by vm_compute.
  - apply (proj2 (proj2 (requires_accepts AR_ demo
                           [VCls CPU; VList [VCls CPU; VCls P1]])));
      by vm_compute.
Defined.

Lemma nonconforming_target_rejected_witness :
  implements_decorate_process_model APM_ (Some P1) None Plain demo_binders
  = (demo_binders, inl (AssertionError MsgNotProcessModel)) ∧
  requires_decorate_process_model APM_ 1 Plain demo_binders
  = (demo_binders, inl (AssertionError MsgNotProcessModel)) ∧
  tags_decorate_process_model APM_ 2 Plain demo_binders
  = (demo_binders, inl (AssertionError MsgNotProcessModel)).
Proof.
  pose proof (nonconforming_target_rejected APM_ demo_binders Plain
                ltac:(by vm_compute)) as (_ & Himpl & Hreq & Htags).
  split; [apply Himpl|]. split; [apply Hreq|apply Htags].
Defined.

Lemma implements_idempotent_witness :
  implements_decorate_process_model APM_ (Some P1) (Some Proto1) Model
    (final (implements_decorate_process_model APM_ (Some P1) (Some Proto1)
              Model demo))
  = (final (implements_decorate_process_model APM_ (Some P1) (Some Proto1)
              Model demo), inr Model).
Proof.
  apply (implements_idempotent APM_ demo (Some P1) (Some Proto1) Model).
  by vm_compute.
Defined.

Lemma implements_nothing_given_witness :
  implements AP_ ASP_ None None demo = (demo, inr (None, None)) ∧
  implements_decorate_process_model APM_ None None Model demo
  = (demo, inr Model).
Proof.
  pose proof (implements_nothing_given APM_ AP_ ASP_ demo Model
                ltac:(by vm_compute) demo_declares) as (Hmake & Hrun & _).
  split; [exact Hmake|exact Hrun].
Defined.

Lemma tags_rejects_empty_list_witness :
  ∃ st', tags [VStr "cpu"; VList []] demo
         = (st', inl (AssertionError MsgTagsInput)) ∧
         touches_no_class demo st'.
Proof.
  apply (tags_rejects_empty_list demo [VStr "cpu"; VList []]).
  left. apply list_elem_of_lookup. by exists 1.
Defined.

(** ** The further properties on the small program *)

Lemma demo_process_declares : base_declares APM_ demo_process.
Proof.
  intros name Hin.
  repeat (apply elem_of_cons in Hin as [->|Hin]); [..|by apply elem_of_nil in Hin];
    vm_compute; eauto.
Qed.

Lemma implements_decorate_frame_witness :
  classes (final (implements_decorate_process_model APM_ (Some P1)
                    (Some Proto1) SubModel demo_binders)) !! Model
  = classes demo_binders !! Model ∧
  own (final (implements_decorate_process_model APM_ (Some P1)
                (Some Proto1) SubModel demo_binders)) SubModel
    "required_resources"
  = own demo_binders SubModel "required_resources".
Proof.
  pose proof (implements_decorate_frame APM_ (Some P1) (Some Proto1) SubModel
                demo_binders) as (_ & Hcls & Hown).
  split; [apply Hcls|apply Hown]; discriminate.
Defined.

Lemma implements_decorate_reads_back_witness :
  visible (final (implements_decorate_process_model APM_ (Some P1) None Model
                    demo)) Model "implements_process" = Some (ACls P1) ∧
  visible (final (implements_decorate_process_model APM_ (Some P1) None Model
                    demo)) Model "implements_protocol"
  = visible demo Model "implements_protocol".
Proof.
  pose proof (implements_decorate_reads_back APM_ (Some P1) None Model demo
                (final (implements_decorate_process_model APM_ (Some P1) None
                          Model demo))
                ltac:(vm_compute; reflexivity)) as (Hp & Hq & _).
  split; [exact Hp|exact Hq].
Defined.

Lemma implements_decorate_errors_witness :
  outcome (implements_decorate_process_model APM_ (Some P2) None SubModel
             demo_process) = inr SubModel ∨
  outcome (implements_decorate_process_model APM_ (Some P2) None SubModel
             demo_process)
  = inl (AssertionError (MsgAlreadyProcess "SubModel")) ∨
  outcome (implements_decorate_process_model APM_ (Some P2) None SubModel
             demo_process)
  = inl (AssertionError (MsgAlreadyProtocol "SubModel")).
Proof.
  apply (implements_decorate_errors APM_ (Some P2) None SubModel demo_process
           (ClassObj "SubModel" [Model; APM_] ∅)).
  - by vm_compute.
  - exact demo_process_declares.
  - by vm_compute.
Defined.

Lemma extending_closures_all_or_nothing_witness :
  final (requires_decorate_process_model APM_ 0 Model demo_bare) = demo_bare.
Proof.
  apply (proj1 (extending_closures_all_or_nothing APM_ 0 Model demo_bare
                  AttributeError)).
  by vm_compute.
Defined.

Lemma closures_need_a_list_witness :
  requires_decorate_process_model APM_ 0 Model demo_bare
  = (demo_bare, inl AttributeError) ∧
  requires_decorate_process_model APM_ 1 Model demo_none
  = (demo_none, inl AttributeError) ∧
  tags_decorate_process_model APM_ 2 Model demo_none
  = (demo_none, inl AttributeError) ∧
  outcome (tags_decorate_process_model APM_ 0 Model demo_bare) = inr Model.
Proof.
  pose proof (closures_need_a_list APM_ 0 Model demo_bare
                ltac:(by vm_compute)) as (Hreq & _ & Htags).
  pose proof (closures_need_a_list APM_ 1 Model demo_none
                ltac:(by vm_compute)) as (Hreq1 & _ & _).
  pose proof (closures_need_a_list APM_ 2 Model demo_none
                ltac:(by vm_compute)) as (_ & Htags2 & _).
  split; [apply Hreq; left; by vm_compute|].
  split; [apply Hreq1; right; by vm_compute|].
  split; [apply Htags2; by vm_compute|].
  apply Htags. by vm_compute.
Defined.

Lemma closures_stack_witness :
  ∃ s1 s2 l',
    requires_decorate_process_model APM_ 1 Model demo_binders
    = (s1, inr Model) ∧
    requires_decorate_process_model APM_ 1 Model s1 = (s2, inr Model) ∧
    own s2 Model "required_resources" = Some (AList l') ∧
    heap s2 !! l' = Some (([] ++ [VCls CPU]) ++ [VCls CPU]).
Proof.
  pose proof (closures_stack APM_ Model demo_binders 1 1 [VCls CPU]
                [VCls CPU] ltac:(by vm_compute) ltac:(by vm_compute)
                ltac:(by vm_compute)) as (Hreq & _).
  apply (Hreq 0 []); by vm_compute.
Defined.

Lemma requirements_accumulate_down_witness :
  ∃ s1 s2 lM lN,
    requires_decorate_process_model APM_ 1 Model demo_binders
    = (s1, inr Model) ∧
    requires_decorate_process_model APM_ 1 SubModel s1 = (s2, inr SubModel) ∧
    own s2 Model "required_resources" = Some (AList lM) ∧
    heap s2 !! lM = Some ([] ++ [VCls CPU]) ∧
    own s2 SubModel "required_resources" = Some (AList lN) ∧
    heap s2 !! lN = Some (([] ++ [VCls CPU]) ++ [VCls CPU]) ∧
    lM ≠ lN.
Proof.
  apply (requirements_accumulate_down APM_ demo_binders Model SubModel
           (ClassObj "SubModel" [Model; APM_] ∅) [APM_] 0 [] 1 [VCls CPU] 1
           [VCls CPU]); by vm_compute.
Defined.

Lemma requires_closure_shared_witness :
  ∃ s1 s2 l1 l2,
    requires_decorate_process_model APM_ 1 Model demo_two = (s1, inr Model) ∧
    requires_decorate_process_model APM_ 1 Other s1 = (s2, inr Other) ∧
    own s2 Model "required_resources" = Some (AList l1) ∧
    heap s2 !! l1 = Some ([] ++ [VCls CPU]) ∧
    own s2 Other "required_resources" = Some (AList l2) ∧
    heap s2 !! l2 = Some ([] ++ [VCls CPU]) ∧
    l1 ≠ l2 ∧ heap s2 !! 1 = Some [VCls CPU].
Proof.
  apply (requires_closure_shared APM_ demo_two Model Other 0 [] 0 [] 1
           [VCls CPU]); by vm_compute.
Defined.

Lemma tags_closure_aliases_witness :
  ∃ s1 s2,
    tags_decorate_process_model APM_ 2 Model demo_two = (s1, inr Model) ∧
    tags_decorate_process_model APM_ 2 Other s1 = (s2, inr Other) ∧
    own s2 Model "tag_list" = Some (AList 2) ∧
    own s2 Other "tag_list" = Some (AList 2) ∧
    heap s2 = heap demo_two.
Proof.
  apply (tags_closure_aliases APM_ demo_two Model Other 2); by vm_compute.
Defined.

Lemma decoration_stays_below_witness :
  visible (final (requires_decorate_process_model APM_ 1 SubModel
                    demo_binders)) Model "required_resources"
  = visible demo_binders Model "required_resources".
Proof.
  pose proof (decoration_stays_below APM_ demo_binders SubModel Model
                "required_resources" ltac:(vm_compute; eauto)
                ltac:(by vm_compute)) as (_ & Hreq & _).
  apply Hreq.
Defined.

Lemma subclass_sees_decoration_witness :
  visible (final (implements_decorate_process_model APM_ (Some P1) None Model
                    demo_binders)) SubModel "implements_process"
  = Some (ACls P1).
Proof.
  pose proof (subclass_sees_decoration APM_ demo_binders Model SubModel
                (ClassObj "SubModel" [Model; APM_] ∅) [APM_]
                ltac:(discriminate) ltac:(by vm_compute) eq_refl)
    as (Himpl & _).
  apply (Himpl P1 None); [by vm_compute|].
  vm_compute. reflexivity.
Defined.

Lemma implements_validates_witness :
  outcome (implements AP_ ASP_ (Some P1) (Some Proto1) demo)
  = inr (Some P1, Some Proto1) ∧
  outcome (implements AP_ ASP_ (Some CPU) None demo)
  = inl (AssertionError NoMessage).
Proof.
  split.
  - apply (proj1 (proj2 (implements_validates AP_ ASP_ demo (Some P1)
                           (Some Proto1)))).
    + intros p [= <-]. by vm_compute.
    + intros q [= <-]. by vm_compute.
  - apply (proj1 (proj2 (proj2 (implements_validates AP_ ASP_ demo (Some CPU)
                                  None))) CPU eq_refl).
    + vm_compute. eauto.
    + by vm_compute.
Defined.

Lemma tags_accepts_exactly_witness :
  (∃ s tl,
     tags [VStr "cpu"; VList [VStr "fast"; VStr "precise"]] demo
     = (s, inr tl) ∧
     heap s !! tl = Some [VStr "cpu"; VStr "fast"; VStr "precise"]) ∧
  (∃ s, tags [VTuple [VStr "cpu"]] demo
        = (s, inl (AssertionError MsgTagsInput))).
Proof.
  split.
  - apply (proj1 (tags_accepts_exactly demo
                    [VStr "cpu"; VList [VStr "fast"; VStr "precise"]])).
    by vm_compute.
  - apply (proj2 (tags_accepts_exactly demo [VTuple [VStr "cpu"]])).
    by vm_compute.
Defined.

Lemma tags_of_strings_witness :
  ∃ s tl,
    tags [VStr "cpu"; VList [VStr "fast"; VStr "precise"]] demo
    = (s, inr tl) ∧
    heap s !! tl
    = Some (flatten_tags [VStr "cpu"; VList [VStr "fast"; VStr "precise"]]) ∧
    Forall (λ v, isinstance_str v = true)
      (flatten_tags [VStr "cpu"; VList [VStr "fast"; VStr "precise"]]).
Proof.
  apply (tags_of_strings demo
           [VStr "cpu"; VList [VStr "fast"; VStr "precise"]]).
  - by vm_compute.
  - intros Hin.
    repeat (apply elem_of_cons in Hin as [Hin|Hin]; [discriminate|]).
    by apply elem_of_nil in Hin.
Defined.

Lemma tags_concatenates_witness :
  ∃ s t xa xb,
    tags ([VStr "cpu"] ++ [VList [VStr "fast"]]) demo = (s, inr t) ∧
    heap (final (tags [VStr "cpu"] demo)) !! 2 = Some xa ∧
    heap (final (tags [VList [VStr "fast"]] demo)) !! 2 = Some xb ∧
    heap s !! t = Some (xa ++ xb).
Proof.
  apply (proj1 (tags_concatenates demo [VStr "cpu"] [VList [VStr "fast"]])
           (final (tags [VStr "cpu"] demo)) 2
           (final (tags [VList [VStr "fast"]] demo)) 2);
    vm_compute; reflexivity.
Defined.

Lemma requires_first_offender_witness :
  outcome (requires AR_ ([VCls CPU] ++ [VTuple [VCls CPU]]) demo)
  = inl TypeError.
Proof.
  apply (proj1 (requires_first_offender AR_ demo [VCls CPU]
                  (VTuple [VCls CPU]) [] ltac:(by vm_compute))).
  by vm_compute.
Defined.

Lemma implements_requires_commute_witness :
  ∃ s,
    implements_decorate_process_model APM_ (Some P1) (Some Proto1) Model
      (final (requires_decorate_process_model APM_ 1 Model demo_binders))
    = (s, inr Model) ∧
    requires_decorate_process_model APM_ 1 Model
      (final (implements_decorate_process_model APM_ (Some P1) (Some Proto1)
                Model demo_binders))
    = (s, inr Model).
Proof.
  apply (implements_requires_commute APM_ demo_binders Model (Some P1)
           (Some Proto1) 1 ANone ANone).
  - by vm_compute.
  - by left.
  - by vm_compute.
  - by left.
  - vm_compute. reflexivity.
  - vm_compute. reflexivity.
Defined.

Lemma implements_tags_commute_witness :
  ∃ s,
    implements_decorate_process_model APM_ (Some P1) (Some Proto1) SubModel
      (final (tags_decorate_process_model APM_ 3 SubModel demo_tagged))
    = (s, inr SubModel) ∧
    tags_decorate_process_model APM_ 3 SubModel
      (final (implements_decorate_process_model APM_ (Some P1) (Some Proto1)
                SubModel demo_tagged))
    = (s, inr SubModel).
Proof.
  apply (implements_tags_commute APM_ demo_tagged SubModel (Some P1)
           (Some Proto1) 3 ANone ANone).
  - by vm_compute.
  - by left.
  - by vm_compute.
  - by left.
  - vm_compute. reflexivity.
  - vm_compute. reflexivity.
Defined.

Lemma extending_closures_frame_witness :
  own (final (requires_decorate_process_model APM_ 1 SubModel demo_tagged))
    SubModel "tag_list"
  = own demo_tagged SubModel "tag_list" ∧
  heap (final (tags_decorate_process_model APM_ 3 SubModel demo_tagged)) !! 3
  = Some [VStr "gpu"].
Proof.
  pose proof (extending_closures_frame APM_ 1 SubModel demo_tagged)
    as ((_ & Hown & _) & _).
  pose proof (extending_closures_frame APM_ 3 SubModel demo_tagged)
    as (_ & (_ & _ & Hheap)).
  split; [apply Hown; discriminate|apply Hheap; by vm_compute].
Defined.

Lemma requires_decorator_witness :
  ∃ s l',
    (reqs <- requires AR_ [VCls CPU; VList [VCls CPU; VCls CPU]] ;;
     requires_decorate_process_model APM_ reqs Model) demo
    = (s, inr Model) ∧
    own s Model "required_resources" = Some (AList l') ∧
    heap s !! l' = Some ([] ++ [VCls CPU; VList [VCls CPU; VCls CPU]]) ∧
    heap demo !! l' = None ∧
    ∀ l xs, heap demo !! l = Some xs → heap s !! l = Some xs.
Proof.
  apply (requires_decorator APM_ AR_ demo
           [VCls CPU; VList [VCls CPU; VCls CPU]] Model 0 []);
    by vm_compute.
Defined.

Lemma tags_decorator_witness :
  (∃ s l',
     (tag_list <- tags [VStr "cpu"; VList [VStr "fast"; VStr "precise"]] ;;
      tags_decorate_process_model APM_ tag_list Model) demo
     = (s, inr Model) ∧
     own s Model "tag_list" = Some (AList l') ∧
     heap s !! l'
     = Some (flatten_tags [VStr "cpu"; VList [VStr "fast"; VStr "precise"]]))
  ∧
  (∃ s l',
     (tag_list <- tags [VStr "gpu"] ;;
      tags_decorate_process_model APM_ tag_list SubModel) demo_tagged
     = (s, inr SubModel) ∧
     own s SubModel "tag_list" = Some (AList l') ∧
     heap s !! l' = Some ([VStr "cpu"] ++ flatten_tags [VStr "gpu"])).
Proof.
  split.
  - apply (proj1 (tags_decorator APM_ demo
                    [VStr "cpu"; VList [VStr "fast"; VStr "precise"]] Model
                    ltac:(by vm_compute) ltac:(by vm_compute))).
    by vm_compute.
  - apply (proj2 (tags_decorator APM_ demo_tagged [VStr "gpu"] SubModel
                    ltac:(by vm_compute) ltac:(by vm_compute)) 2 [VStr "cpu"]);
      by vm_compute.
Defined.
